(** * FreeTypePen: contour accumulation, quantisation and outline assembly

    A shallow embedding of [Lib/fontTools/pens/freetypePen.py].

    Numbers.  Python coordinates, offsets, scales and canvas sizes are
    modelled by exact rationals ([Q]); the fixed-point values handed to
    FreeType are integers ([Z]) converted through [ctypes], whose integer
    types keep the low bits of the value without any range check.

    State.  The pen owns one mutable list, [self.contours].  The four
    protected drawing methods are computations in a small state-and-error
    monad that hands back the contour list also when an exception is
    raised, so that the state left behind by a failure can be inspected.

    External code.  The FreeType entry points ([FT_Outline_Get_BBox],
    [FT_Outline_Get_CBox], [FT_Outline_Get_Bitmap]) belong to a C library
    outside the repository; they are section variables of the part of the
    development that calls them. *)

From Stdlib Require Import ZArith QArith Qround Qabs Qminmax List Bool Lia Lqa.
From Stdlib Require Import Sorted.
From Stdlib Require String.
Import String.StringSyntax.
Import ListNotations.

Local Open Scope Z_scope.
Delimit Scope string_scope with string.

(* ------------------------------------------------------------------ *)
(** ** ctypes integer conversions *)

(** [ctypes] stores a Python integer in an unsigned C integer of [bits]
    bits by keeping its low [bits] bits. *)
Definition c_unsigned (bits : Z) (v : Z) : Z := v mod 2 ^ bits.

(** The same for a signed C integer (two's complement). *)
Definition c_signed (bits : Z) (v : Z) : Z :=
  (v + 2 ^ (bits - 1)) mod 2 ^ bits - 2 ^ (bits - 1).

Definition c_ubyte : Z -> Z := c_unsigned 8.
Definition c_short : Z -> Z := c_signed 16.
Definition c_int   : Z -> Z := c_signed 32.
(** [ctypes.c_long] on LP64 platforms. *)
Definition c_long  : Z -> Z := c_signed 64.

(** [freetype.ft_types.FT_Pos] is [c_long]. *)
Definition FT_Pos : Z -> Z := c_long.

(** Values a signed C integer of [bits] bits holds unchanged. *)
Definition in_signed_range (bits : Z) (v : Z) : Prop :=
  - 2 ^ (bits - 1) <= v < 2 ^ (bits - 1).

(* ------------------------------------------------------------------ *)
(** ** Rounding *)

(** Modelled from the spec: [fontTools.misc.roundTools.otRound], imported
    at line 22 of the pen, is not among the available sources.  The
    specification of the quantiser says that the scaled coordinate is
    rounded "to nearest integer (ties away from zero)". *)
Definition otRound (q : Q) : Z :=
  if Qle_bool 0 q then Qfloor (q + (1 # 2)) else Qceiling (q - (1 # 2)).

(** The rounding mode in the words of the specification: [z] is a nearest
    integer to [q], and when [q] lies half way between two integers [z] is
    the one farther from zero. *)
Definition nearest_ties_away (q : Q) (z : Z) : Prop :=
  (Qabs (inject_Z z - q) <= 1 # 2)%Q /\
  (Qabs (inject_Z z - q) == 1 # 2 -> Qabs q < Qabs (inject_Z z))%Q.

(* ------------------------------------------------------------------ *)
(** ** Contours and tags (lines 24-29) *)

Definition Point : Type := (Q * Q)%type.

Module Contour.
Record t : Type := make { points : list Point; tags : list Z }.
End Contour.

Definition LINE      : Z := 1.
Definition CURVE     : Z := 3.
Definition OFFCURVE  : Z := 2.
Definition QCURVE    : Z := 1.
Definition QOFFCURVE : Z := 0.

(** The five point classifications of the data model, and the tag each
    one is recorded with by the drawing methods. *)
Inductive PointKind : Type :=
  | LineEndpoint | CubicEndpoint | CubicControl | QuadEndpoint | QuadControl.

Definition tag_of (k : PointKind) : Z :=
  match k with
  | LineEndpoint  => LINE
  | CubicEndpoint => CURVE
  | CubicControl  => OFFCURVE
  | QuadEndpoint  => QCURVE
  | QuadControl   => QOFFCURVE
  end.


(* ------------------------------------------------------------------ *)
(** ** The pen monad *)

Inductive PyError : Type :=
  | IndexError
  | ValueError
  | FT_Exception (err : Z).

(** A method of the pen: it reads and updates [self.contours] and either
    returns a value or raises; the contour list is returned in both
    cases. *)
Definition Pen (A : Type) : Type :=
  list Contour.t -> (PyError + A) * list Contour.t.

Definition ret {A} (a : A) : Pen A := fun cs => (inr a, cs).
Definition raise {A} (e : PyError) : Pen A := fun cs => (inl e, cs).
Definition bind {A B} (m : Pen A) (k : A -> Pen B) : Pen B :=
  fun cs =>
    match m cs with
    | (inr a, cs') => k a cs'
    | (inl e, cs') => (inl e, cs')
    end.

Notation "x <- m ;; k" := (bind m (fun x => k))
  (at level 61, m at next level, right associativity).
Notation "m ;;; k" := (bind m (fun _ => k))
  (at level 61, right associativity).

(** [self.contours.append(contour)] *)
Definition append_contour (c : Contour.t) : Pen unit :=
  fun cs => (inr tt, cs ++ [c]).

(** [contour = self.contours[-1]]: raises [IndexError] on an empty list. *)
Definition last_contour : Pen Contour.t :=
  fun cs =>
    match rev cs with
    | [] => (inl IndexError, cs)
    | c :: _ => (inr c, cs)
    end.

(** [contour.points.append(p); contour.tags.append(t)] where [contour] is
    the object obtained from [self.contours[-1]]: the last element of the
    list is updated in place. *)
Definition append_point (p : Point) (t : Z) : Pen unit :=
  fun cs =>
    match rev cs with
    | [] => (inr tt, cs)
    | c :: r =>
        (inr tt,
         rev r ++ [Contour.make (Contour.points c ++ [p]) (Contour.tags c ++ [t])])
    end.

Fixpoint append_points (pts : list (Point * Z)) : Pen unit :=
  match pts with
  | [] => ret tt
  | (p, t) :: rest => append_point p t ;;; append_points rest
  end.

(** Lines 314-318. *)
Definition _moveTo (pt : Point) : Pen unit :=
  append_contour (Contour.make [] []) ;;;
  append_point pt LINE.

(** Lines 320-323. *)
Definition _lineTo (pt : Point) : Pen unit :=
  _ <- last_contour ;;
  append_point pt LINE.

(** Lines 325-330. *)
Definition _curveToOne (p1 p2 p3 : Point) : Pen unit :=
  let '(t1, t2, t3) := (OFFCURVE, OFFCURVE, CURVE) in
  _ <- last_contour ;;
  append_points [(p1, t1); (p2, t2); (p3, t3)].

(** Lines 332-337. *)
Definition _qCurveToOne (p1 p2 : Point) : Pen unit :=
  let '(t1, t2) := (QOFFCURVE, QCURVE) in
  _ <- last_contour ;;
  append_points [(p1, t1); (p2, t2)].

(** A path command, and the method it invokes. *)
Inductive Command : Type :=
  | MoveTo (pt : Point)
  | LineTo (pt : Point)
  | CurveToOne (p1 p2 p3 : Point)
  | QCurveToOne (p1 p2 : Point).

Definition exec (c : Command) : Pen unit :=
  match c with
  | MoveTo pt => _moveTo pt
  | LineTo pt => _lineTo pt
  | CurveToOne p1 p2 p3 => _curveToOne p1 p2 p3
  | QCurveToOne p1 p2 => _qCurveToOne p1 p2
  end.

(** A drawing session: the commands in order, stopping at the first one
    that raises. *)
Fixpoint run (cmds : list Command) : Pen unit :=
  match cmds with
  | [] => ret tt
  | c :: rest => exec c ;;; run rest
  end.

(** [FreeTypePen.__init__]: [self.contours = []]. *)
Definition new_pen : list Contour.t := [].

(** The tagged points a command contributes. *)
Definition command_points (c : Command) : list (Point * Z) :=
  match c with
  | MoveTo pt => [(pt, LINE)]
  | LineTo pt => [(pt, LINE)]
  | CurveToOne p1 p2 p3 => [(p1, OFFCURVE); (p2, OFFCURVE); (p3, CURVE)]
  | QCurveToOne p1 p2 => [(p1, QOFFCURVE); (p2, QCURVE)]
  end.

(* ------------------------------------------------------------------ *)
(** ** FreeType records (freetype.ft_structs) *)

Module FT.
Record Vector : Type := FT_Vector { x : Z; y : Z }.

Record Outline : Type := FT_Outline {
  n_contours : Z;
  n_points   : Z;
  points     : list Vector;
  tags       : list Z;
  contours   : list Z;
  flags      : Z
}.

Record BBox : Type := FT_BBox { xMin : Z; yMin : Z; xMax : Z; yMax : Z }.

(** [buffer] is the size in bytes of the zero-filled string buffer the
    descriptor points to; the palette pointer is null. *)
Record Bitmap : Type := FT_Bitmap {
  rows         : Z;
  width        : Z;
  pitch        : Z;
  buffer       : Z;
  num_grays    : Z;
  pixel_mode   : Z;
  palette_mode : Z
}.
End FT.

Abbreviation FT_Vector := FT.FT_Vector.
Abbreviation FT_Outline := FT.FT_Outline.
Abbreviation FT_BBox := FT.FT_BBox.
Abbreviation FT_Bitmap := FT.FT_Bitmap.

(** Constants of [freetype.ft_enums]. *)
Definition FT_OUTLINE_NONE          : Z := 0.
Definition FT_OUTLINE_EVEN_ODD_FILL : Z := 2.
Definition FT_PIXEL_MODE_GRAY       : Z := 2.

(** A [ctypes] array type of [n] elements instantiated with the
    initialisers [xs]: missing initialisers are zero, too many raise
    [IndexError]. *)
Definition c_array {A} (n : Z) (zero : A) (xs : list A) : PyError + list A :=
  if (Z.of_nat (length xs) <=? n)%Z
  then inr (xs ++ repeat zero (Z.to_nat n - length xs))
  else inl IndexError.

(* ------------------------------------------------------------------ *)
(** ** Transform, quantisation and outline assembly (lines 111-144) *)

(** [otRound((c + offset) * scale * 64)] wrapped in [FT_Pos], line 126. *)
Definition quantize1 (offset scale c : Q) : Z :=
  FT_Pos (otRound ((c + offset) * scale * 64)).

Definition quantize (offset scale : Q * Q) (point : Point) : FT.Vector :=
  FT_Vector (quantize1 (fst offset) (fst scale) (fst point))
            (quantize1 (snd offset) (snd scale) (snd point)).

(** Division by [64.0] in [bbox] and [cbox], lines 300 and 312. *)
Definition dequantize (v : Z) : Q := inject_Z v / 64.

Definition len {A} (l : list A) : Z := Z.of_nat (length l).

(** [sum(len(contour.points) for contour in self.contours)] *)
Fixpoint total_points (cs : list Contour.t) : Z :=
  match cs with
  | [] => 0
  | c :: rest => len (Contour.points c) + total_points rest
  end.

(** The loop of lines 131-135, started with [contours_sum]. *)
Fixpoint contour_ends (contours_sum : Z) (cs : list Contour.t) : list Z :=
  match cs with
  | [] => []
  | c :: rest =>
      let contours_sum := contours_sum + len (Contour.points c) in
      (contours_sum - 1) :: contour_ends contours_sum rest
  end.

Definition flat_points (cs : list Contour.t) : list Point :=
  flat_map Contour.points cs.

Definition flat_tags (cs : list Contour.t) : list Z :=
  flat_map Contour.tags cs.

(** [value or default] for an optional tuple argument: a missing value
    selects the default, a pair is kept whatever its components. *)
Definition or_default {A} (o : option A) (d : A) : A :=
  match o with Some a => a | None => d end.

(** Lines 111-144.  The three arrays are created in this order; the
    scalar fields are converted to C shorts and a C int. *)
Definition outline (offset scale : option (Q * Q)) (evenOdd : bool)
    (cs : list Contour.t) : PyError + FT.Outline :=
  let offset := or_default offset (0, 0)%Q in
  let scale := or_default scale (1, 1)%Q in
  let nContours := len cs in
  let n_points := total_points cs in
  let points := map (quantize offset scale) (flat_points cs) in
  let tags := flat_tags cs in
  let contours := contour_ends 0 cs in
  let flags := if evenOdd then FT_OUTLINE_EVEN_ODD_FILL else FT_OUTLINE_NONE in
  match c_array n_points (FT_Vector 0 0) points with
  | inl e => inl e
  | inr points_array =>
    match c_array n_points 0 (map c_ubyte tags) with
    | inl e => inl e
    | inr tags_array =>
      match c_array nContours 0 (map c_short contours) with
      | inl e => inl e
      | inr contours_array =>
          inr (FT_Outline (c_short nContours) (c_short n_points)
                 points_array tags_array contours_array (c_int flags))
      end
    end
  end.

(** The value of [flags], line 136. *)
Definition fill_flags (evenOdd : bool) : Z :=
  if evenOdd then FT_OUTLINE_EVEN_ODD_FILL else FT_OUTLINE_NONE.

(** Every contour built by the drawing methods carries one tag per
    point. *)
Definition balanced (cs : list Contour.t) : Prop :=
  Forall (fun c => length (Contour.tags c) = length (Contour.points c)) cs.

(** Cumulative sums of the per-contour point counts. *)
Fixpoint cumulative (acc : Z) (ns : list Z) : list Z :=
  match ns with
  | [] => []
  | n :: rest => (acc + n) :: cumulative (acc + n) rest
  end.

Definition contour_sizes (cs : list Contour.t) : list Z :=
  map (fun c => len (Contour.points c)) cs.

(* ------------------------------------------------------------------ *)
(** ** Extents and rasterisation (lines 146-199 and 290-312) *)

Definition Box : Type := (Q * Q * Q * Q)%type.

Definition box_of (b : FT.BBox) : Box :=
  (dequantize (FT.xMin b), dequantize (FT.yMin b),
   dequantize (FT.xMax b), dequantize (FT.yMax b)).

Section Rasterizer.

(** The FreeType calls.  Each one receives the outline and, for the
    boxes, a zero-initialised [FT_BBox] that it fills in; the renderer
    returns its error code and the content of the buffer afterwards. *)
Variable FT_Outline_Get_BBox : FT.Outline -> FT.BBox.
Variable FT_Outline_Get_CBox : FT.Outline -> FT.BBox.
Variable FT_Outline_Get_Bitmap : FT.Outline -> FT.Bitmap -> Z * list Z.

(** Lines 290-300. *)
Definition bbox (cs : list Contour.t) : PyError + Box :=
  match outline None None false cs with
  | inl e => inl e
  | inr o => inr (box_of (FT_Outline_Get_BBox o))
  end.

(** Lines 302-312. *)
Definition cbox (cs : list Contour.t) : PyError + Box :=
  match outline None None false cs with
  | inl e => inl e
  | inr o => inr (box_of (FT_Outline_Get_CBox o))
  end.

(** Lines 173-183: the offset, scale and integer size of the canvas. *)
Definition canvas (offset : option (Q * Q)) (width height : Q)
    (scale : option (Q * Q)) (contain : bool) (cs : list Contour.t)
  : PyError + (Q * Q * (Q * Q) * (Z * Z)) :=
  let '(offset_x, offset_y) := or_default offset (0, 0)%Q in
  let sized :=
    if contain then
      match bbox cs with
      | inl e => inl e
      | inr (b0, b1, b2, b3) =>
          let bbox_size := (b2 - b0, b3 - b1)%Q in
          let offset_x := (Qmin offset_x b0 * -1)%Q in
          let width := Qmax width (fst bbox_size) in
          let offset_y := (Qmin offset_y b1 * -1)%Q in
          let height := Qmax height (snd bbox_size) in
          inr (offset_x, offset_y, width, height)
      end
    else inr (offset_x, offset_y, width, height) in
  match sized with
  | inl e => inl e
  | inr (offset_x, offset_y, width, height) =>
      let scale := or_default scale (1, 1)%Q in
      let width := Qceiling (width * fst scale) in
      let height := Qceiling (height * snd scale) in
      inr (offset_x, offset_y, scale, (width, height))
  end.

(** Lines 146-199.  [ctypes.create_string_buffer] refuses a negative
    size with [ValueError]. *)
Definition buffer (offset : option (Q * Q)) (width height : Q)
    (evenOdd : bool) (scale : option (Q * Q)) (contain : bool)
    (cs : list Contour.t) : PyError + (list Z * (Z * Z)) :=
  match canvas offset width height scale contain cs with
  | inl e => inl e
  | inr (offset_x, offset_y, scale, (width, height)) =>
      if width * height <? 0 then inl ValueError else
      let bitmap :=
        FT_Bitmap (c_int height) (c_int width) (c_int width)
          (width * height) (c_short 256) (c_ubyte FT_PIXEL_MODE_GRAY)
          0 in
      match outline (Some (offset_x, offset_y)) (Some scale) evenOdd cs with
      | inl e => inl e
      | inr o =>
          let '(err, raw) := FT_Outline_Get_Bitmap o bitmap in
          if negb (err =? 0) then inl (FT_Exception err)
          else inr (raw, (width, height))
      end
  end.

End Rasterizer.

(** The box [box], drawn with offset [(ox, oy)] and scale [(sx, sy)], lies
    within a canvas of [w] by [h] pixels. *)
Definition fits_canvas (box : Box) (ox oy sx sy : Q) (w h : Z) : Prop :=
  let '(b0, b1, b2, b3) := box in
  (0 <= (b0 + ox) * sx /\ (b2 + ox) * sx <= inject_Z w /\
   0 <= (b1 + oy) * sy /\ (b3 + oy) * sy <= inject_Z h)%Q.

(* ------------------------------------------------------------------ *)
(** ** Sample data *)

(** A square drawn away from the origin. *)
Definition square_cmds : list Command :=
  [MoveTo (10, 0)%Q; LineTo (60, 0)%Q; LineTo (60, 50)%Q; LineTo (10, 50)%Q].

Definition square : list Contour.t :=
  [Contour.make [(10, 0); (60, 0); (60, 50); (10, 50)]%Q [LINE; LINE; LINE; LINE]].

(** One contour of [S n] points on a line. *)
Definition polyline_cmds (n : nat) : list Command :=
  MoveTo (0, 0)%Q :: repeat (LineTo (1, 0)%Q) n.

Definition polyline (n : nat) : list Contour.t :=
  [Contour.make ((0, 0)%Q :: repeat (1, 0)%Q n) (LINE :: repeat LINE n)].

(** The smallest box around the points of an outline, the zero box when
    there are none: what both FreeType box functions report for an outline
    made of straight segments only. *)
Definition points_box (o : FT.Outline) : FT.BBox :=
  match FT.points o with
  | [] => FT_BBox 0 0 0 0
  | v :: vs =>
      fold_left
        (fun b p =>
           FT_BBox (Z.min (FT.xMin b) (FT.x p)) (Z.min (FT.yMin b) (FT.y p))
                     (Z.max (FT.xMax b) (FT.x p)) (Z.max (FT.yMax b) (FT.y p)))
        vs (FT_BBox (FT.x v) (FT.y v) (FT.x v) (FT.y v))
  end.

(** A renderer that reports success and leaves the zero-filled buffer as
    it is. *)
Definition blank_renderer (o : FT.Outline) (b : FT.Bitmap) : Z * list Z :=
  (0, repeat 0 (Z.to_nat (FT.buffer b))).

(** A box whose left edge lies right of the origin and whose right edge
    overhangs a canvas 600 pixels wide. *)
Definition overhang_cmds : list Command :=
  [MoveTo (50, 0)%Q; LineTo (650, 0)%Q; LineTo (650, 700)%Q; LineTo (50, 700)%Q].

Definition overhang : list Contour.t :=
  [Contour.make [(50, 0); (650, 0); (650, 700); (50, 700)]%Q
                [LINE; LINE; LINE; LINE]].



(* ------------------------------------------------------------------ *)
(** ** Observations on a drawing session *)

(** The number of [MoveTo] commands of a session. *)
Fixpoint count_moves (cmds : list Command) : Z :=
  match cmds with
  | [] => 0
  | MoveTo _ :: rest => 1 + count_moves rest
  | _ :: rest => count_moves rest
  end.

(** The points of the [MoveTo] commands of a session, in order. *)
Fixpoint move_points (cmds : list Command) : list Point :=
  match cmds with
  | [] => []
  | MoveTo pt :: rest => pt :: move_points rest
  | _ :: rest => move_points rest
  end.

(** The first point and the first tag of each contour. *)
Definition starts (cs : list Contour.t) : list (option Point * option Z) :=
  map (fun c => (hd_error (Contour.points c), hd_error (Contour.tags c))) cs.

(** Every contour holds at least one point and one tag. *)
Definition opened (cs : list Contour.t) : Prop :=
  Forall (fun c => Contour.points c <> [] /\ Contour.tags c <> []) cs.

(* ------------------------------------------------------------------ *)
(** ** InterpolatablePdf (Lib/fontTools/varLib/interpolatablePdf.py)

    The report writer draws on a cairo surface.  Its methods are modelled
    as computations that return a value or raise, together with the list of
    cairo calls made up to that point.  What cairo and the glyph objects
    answer when queried (font and text extents, control bounds) is left
    open: these are variables of the section. *)

Module InterpolatablePdf.

Definition Color : Type := (Q * Q * Q)%type.

Inductive Error : Type :=
  | KeyError (key : String.string)
  | ValueError
  | IndexError
  | TypeError
  | ZeroDivisionError.

(** A problem record, a dict from field names to strings. *)
Definition Problem : Type := list (String.string * String.string).

Fixpoint lookup (p : Problem) (k : String.string) : option String.string :=
  match p with
  | [] => None
  | (k', v) :: rest => if String.eqb k' k then Some v else lookup rest k
  end.

(** [k in p] *)
Definition contains (p : Problem) (k : String.string) : bool :=
  match lookup p k with Some _ => true | None => false end.

(** [names.index(v)]: the first position of [v], if any. *)
Fixpoint index (names : list String.string) (v : String.string) : option nat :=
  match names with
  | [] => None
  | n :: rest => if String.eqb n v then Some O else option_map S (index rest v)
  end.

Section Surface.

(** Glyph objects, and the bounds a [ControlBoundsPen] holds after the
    glyph was drawn into it ([None] for a glyph without points). *)
Variable Glyph : Type.
Variable control_bounds : Glyph -> option (Q * Q * Q * Q).

(** [cr.font_extents()] (its first three components: ascent, descent,
    height) and the width of [cr.text_extents(label)], at a font size. *)
Variable font_extents : Q -> Q * Q * Q.
Variable text_width : Q -> String.string -> Q.

(** A glyph set, looked up by glyph name. *)
Definition GlyphSet : Type := String.string -> option Glyph.

(** Calls on the surface and on cairo contexts.  [Context] is the creation
    of a context on the surface; [draw g] stands for [g] being drawn into
    a [CairoPen] on the current context. *)
Inductive CairoCall : Type :=
  | set_size (w h : Q)
  | show_page
  | Context
  | select_font_face
  | set_font_size (size : Q)
  | set_source_rgb (c : Color)
  | move_to (x y : Q)
  | show_text (label : String.string)
  | translate (tx ty : Q)
  | scale (sx sy : Q)
  | rectangle (x y w h : Q)
  | set_line_width (w : Q)
  | stroke
  | fill
  | draw (g : Glyph).

(** The attributes of an [InterpolatablePdf] that the drawing methods
    read. *)
Record t : Type := make {
  width : Q;
  height : Q;
  pad : Q;
  line_height : Q;
  head_color : Color;
  label_color : Color;
  border_color : option Color;
  border_width : Q;
  fill_color : option Color;
  stroke_color : option Color;
  stroke_width : Q;
  names : list String.string;
  glyphsets : list GlyphSet
}.

(** The class attributes, lines 9-20. *)
Definition defaults (names : list String.string) (glyphsets : list GlyphSet) : t :=
  make 640 480 16 36
       (3 # 10, 3 # 10, 3 # 10)%Q (2 # 10, 2 # 10, 2 # 10)%Q
       (Some (9 # 10, 9 # 10, 9 # 10)%Q) 1
       (Some (8 # 10, 8 # 10, 8 # 10)%Q)
       (Some (1 # 10, 1 # 10, 1 # 10)%Q) 2
       names glyphsets.

Definition Draw (A : Type) : Type := ((Error + A) * list CairoCall)%type.

Definition dret {A} (a : A) : Draw A := (inr a, []).
Definition draise {A} (e : Error) : Draw A := (inl e, []).
Definition emit (c : CairoCall) : Draw unit := (inr tt, [c]).
Definition dbind {A B} (m : Draw A) (k : A -> Draw B) : Draw B :=
  match m with
  | (inr a, calls) => let '(r, calls') := k a in (r, calls ++ calls')
  | (inl e, calls) => (inl e, calls)
  end.

Notation "x <~ m ;; k" := (dbind m (fun x => k))
  (at level 61, m at next level, right associativity).
Notation "m >>> k" := (dbind m (fun _ => k))
  (at level 61, right associativity).

(** [a / b] *)
Definition truediv (a b : Q) : Draw Q :=
  if Qeq_bool b 0 then draise ZeroDivisionError else dret (a / b)%Q.

(** [p[k]] *)
Definition getitem (p : Problem) (k : String.string) : Draw String.string :=
  match lookup p k with
  | Some v => dret v
  | None => draise (KeyError k)
  end.

(** [a > b] *)
Definition Qgt_bool (a b : Q) : bool := negb (Qle_bool a b).

(** Lines 79-102. *)
Definition draw_label (self : t) (label : String.string) (y : Q)
    (color : Color) (align : Q) : Draw unit :=
  emit Context >>>
  emit select_font_face >>>
  emit (set_font_size (line_height self)) >>>
  let fe := font_extents (line_height self) in
  font_size <~ truediv (line_height self * line_height self) (snd fe) ;;
  emit (set_font_size font_size) >>>
  let fe := font_extents font_size in
  emit (set_source_rgb color) >>>
  let extents := text_width font_size label in
  state <~ (if Qgt_bool extents (width self) then
              ratio <~ truediv (width self) extents ;;
              let font_size := (font_size * ratio)%Q in
              emit (set_font_size font_size) >>>
              dret (font_extents font_size, text_width font_size label)
            else dret (fe, extents)) ;;
  let '(fe, extents) := state in
  let label_x := ((width self - extents) * align + pad self)%Q in
  let label_y := (y + fst (fst fe))%Q in
  emit (move_to label_x label_y) >>>
  emit (show_text label).

(** One of the three optional passes of [draw_glyph]: skipped when the
    colour is unset. *)
Definition when_color (c : option Color) (body : Color -> Draw unit) : Draw unit :=
  match c with
  | Some c => body c
  | None => dret tt
  end.

(** Lines 104-144. *)
Definition draw_glyph (self : t) (glyphset : GlyphSet)
    (glyphname : String.string) (x y : Q) : Draw unit :=
  match glyphset glyphname with
  | None => draise (KeyError glyphname)
  | Some glyph =>
    match control_bounds glyph with
    | None => draise TypeError
    | Some (b0, b1, b2, b3) =>
      let glyph_width := (b2 - b0)%Q in
      let glyph_height := (b3 - b1)%Q in
      sw <~ truediv (width self) glyph_width ;;
      sh <~ truediv (height self) glyph_height ;;
      let s := Qmin sw sh in
      emit Context >>>
      emit (translate x y) >>>
      emit (translate ((width self - glyph_width * s) / 2)
                      ((height self - glyph_height * s) / 2))%Q >>>
      emit (scale s (- s))%Q >>>
      emit (translate (- b0) (- b3))%Q >>>
      when_color (border_color self) (fun c =>
        emit (set_source_rgb c) >>>
        emit (rectangle b0 b1 glyph_width glyph_height) >>>
        lw <~ truediv (border_width self) s ;;
        emit (set_line_width lw) >>>
        emit stroke) >>>
      when_color (fill_color self) (fun c =>
        emit (draw glyph) >>>
        emit (set_source_rgb c) >>>
        emit fill) >>>
      when_color (stroke_color self) (fun c =>
        emit (draw glyph) >>>
        emit (set_source_rgb c) >>>
        lw <~ truediv (stroke_width self) s ;;
        emit (set_line_width lw) >>>
        emit stroke)
    end
  end.

(** [[self.names.index(p[k]) for k in master_keys]], line 46. *)
Fixpoint master_indices_of (self : t) (p : Problem)
    (master_keys : list String.string) : Draw (list nat) :=
  match master_keys with
  | [] => dret []
  | k :: rest =>
      v <~ getitem p k ;;
      i <~ match index (names self) v with
           | Some i => dret i
           | None => draise ValueError
           end ;;
      others <~ master_indices_of self p rest ;;
      dret (i :: others)
  end.

(** [xs[i]] on a list, for an index that is not negative. *)
Definition list_item {A} (xs : list A) (i : nat) : Draw A :=
  match nth_error xs i with
  | Some a => dret a
  | None => draise IndexError
  end.

(** The loop of lines 66-75; the value is [y] after the last round. *)
Fixpoint draw_masters (self : t) (glyphname : String.string) (x : Q)
    (master_indices : list nat) (y : Q) : Draw Q :=
  match master_indices with
  | [] => dret y
  | master_idx :: rest =>
      glyphset <~ list_item (glyphsets self) master_idx ;;
      name <~ list_item (names self) master_idx ;;
      draw_label self name y (label_color self) (1 # 2) >>>
      let y := (y + (line_height self + pad self))%Q in
      draw_glyph self glyphset glyphname x y >>>
      let y := (y + (height self + pad self))%Q in
      draw_masters self glyphname x rest y
  end.

(** The page height computed at lines 49-55 for [n] masters. *)
Definition total_height (self : t) (n : nat) : Q :=
  (pad self + line_height self + pad self
   + inject_Z (Z.of_nat n)
     * (height self + pad self * 2 + line_height self)
   + pad self)%Q.

(** Lines 44-77. *)
Definition add_problem (self : t) (glyphname : String.string) (p : Problem)
  : Draw unit :=
  let master_keys :=
    if contains p "master"%string then ["master"%string]
    else ["master_1"; "master_2"]%string in
  master_indices <~ master_indices_of self p master_keys ;;
  let total_width := (width self + 2 * pad self)%Q in
  let total_height := total_height self (length master_indices) in
  emit (set_size total_width total_height) >>>
  let x := pad self in
  let y := pad self in
  draw_label self glyphname y (head_color self) 0 >>>
  type <~ getitem p "type"%string ;;
  draw_label self type y (head_color self) 1 >>>
  let y := (y + (line_height self + pad self))%Q in
  _ <~ draw_masters self glyphname x master_indices y ;;
  emit show_page.

(** Lines 39-42: [problems] lists the items of the dict in order. *)
Fixpoint add_problem_list (self : t) (glyph : String.string)
    (glyph_problems : list Problem) : Draw unit :=
  match glyph_problems with
  | [] => dret tt
  | p :: rest => add_problem self glyph p >>> add_problem_list self glyph rest
  end.

Fixpoint add_problems (self : t)
    (problems : list (String.string * list Problem)) : Draw unit :=
  match problems with
  | [] => dret tt
  | (glyph, glyph_problems) :: rest =>
      add_problem_list self glyph glyph_problems >>> add_problems self rest
  end.

(** ** Reading a list of calls *)

(** The origins of the glyph cells: the translation that follows the
    creation of a context. *)
Fixpoint cells (calls : list CairoCall) : list (Q * Q) :=
  match calls with
  | [] => []
  | c :: rest =>
      match c, rest with
      | Context, translate x y :: _ => (x, y) :: cells rest
      | _, _ => cells rest
      end
  end.

Definition is_show_page (c : CairoCall) : bool :=
  match c with show_page => true | _ => false end.

Definition is_set_size (c : CairoCall) : bool :=
  match c with set_size _ _ => true | _ => false end.

(** The texts shown, in order. *)
Fixpoint texts (calls : list CairoCall) : list String.string :=
  match calls with
  | [] => []
  | show_text label :: rest => label :: texts rest
  | _ :: rest => texts rest
  end.

(** Calls other than the two page-level calls on the surface. *)
Definition quiet (calls : list CairoCall) : Prop :=
  Forall (fun c => is_show_page c = false /\ is_set_size c = false) calls.

(** A list of calls that does not start inside a glyph cell. *)
Definition fresh_start (calls : list CairoCall) : Prop :=
  match calls with
  | translate _ _ :: _ => False
  | _ => True
  end.

End Surface.

Arguments set_size {Glyph}.
Arguments show_page {Glyph}.
Arguments Context {Glyph}.
Arguments select_font_face {Glyph}.
Arguments set_font_size {Glyph}.
Arguments set_source_rgb {Glyph}.
Arguments move_to {Glyph}.
Arguments show_text {Glyph}.
Arguments translate {Glyph}.
Arguments scale {Glyph}.
Arguments rectangle {Glyph}.
Arguments set_line_width {Glyph}.
Arguments stroke {Glyph}.
Arguments fill {Glyph}.
Arguments draw {Glyph}.
Arguments width {Glyph}.
Arguments height {Glyph}.
Arguments pad {Glyph}.
Arguments line_height {Glyph}.
Arguments head_color {Glyph}.
Arguments label_color {Glyph}.
Arguments border_color {Glyph}.
Arguments border_width {Glyph}.
Arguments fill_color {Glyph}.
Arguments stroke_color {Glyph}.
Arguments stroke_width {Glyph}.
Arguments names {Glyph}.
Arguments glyphsets {Glyph}.
Arguments dret {Glyph A}.
Arguments draise {Glyph A}.
Arguments emit {Glyph}.
Arguments dbind {Glyph A B}.
Arguments truediv {Glyph}.
Arguments getitem {Glyph}.
Arguments list_item {Glyph A}.
Arguments when_color {Glyph}.
Arguments draw_label {Glyph}.
Arguments draw_glyph {Glyph}.
Arguments master_indices_of {Glyph}.
Arguments draw_masters {Glyph}.
Arguments total_height {Glyph}.
Arguments add_problem {Glyph}.
Arguments add_problem_list {Glyph}.
Arguments add_problems {Glyph}.
Arguments cells {Glyph}.
Arguments is_show_page {Glyph}.
Arguments is_set_size {Glyph}.
Arguments quiet {Glyph}.
Arguments texts {Glyph}.
Arguments fresh_start {Glyph}.

(** ** A sample report

    Two masters sharing one glyph set with the single glyph [a], whose
    control box is 100 wide and 200 high; a font whose ascent is four
    fifths of its size and a text half as wide per character as the font
    is high. *)

Definition sample_glyphset : GlyphSet unit :=
  fun name => if String.eqb name "a"%string then Some tt else None.

Definition sample_bounds (g : unit) : option (Q * Q * Q * Q) :=
  Some (0, -50, 100, 150)%Q.

Definition flat_bounds (g : unit) : option (Q * Q * Q * Q) :=
  Some (0, 0, 100, 0)%Q.

Definition sample_font_extents (size : Q) : Q * Q * Q :=
  (size * (4 # 5), size * (1 # 5), size)%Q.

Definition sample_text_width (size : Q) (label : String.string) : Q :=
  (size * inject_Z (Z.of_nat (String.length label)) * (1 # 2))%Q.

Definition sample_report : t unit :=
  defaults unit ["Regular"; "Bold"]%string [sample_glyphset; sample_glyphset].

Definition sample_problem : Problem :=
  [("master_1", "Regular"); ("master_2", "Bold"); ("type", "contour_order")]%string.

Definition single_problem : Problem :=
  [("master", "Bold"); ("type", "open_path")]%string.

End InterpolatablePdf.

(* ================================================================== *)
(** * Properties *)

(* ------------------------------------------------------------------ *)
(** ** ctypes conversions *)

Lemma c_signed_small (bits v : Z) :
  0 < bits -> in_signed_range bits v -> c_signed bits v = v.
Proof.
  intros Hb [Hlo Hhi]. unfold c_signed.
  assert (E : 2 ^ bits = 2 * 2 ^ (bits - 1)).
  { replace bits with (Z.succ (bits - 1)) at 1 by lia.
    apply Z.pow_succ_r. lia. }
  rewrite Z.mod_small; lia.
Qed.

Lemma c_signed_range (bits v : Z) :
  0 < bits -> in_signed_range bits (c_signed bits v).
Proof.
  intros Hb. unfold in_signed_range, c_signed.
  assert (E : 2 ^ bits = 2 * 2 ^ (bits - 1)).
  { replace bits with (Z.succ (bits - 1)) at 1 by lia.
    apply Z.pow_succ_r. lia. }
  assert (P : 0 < 2 ^ (bits - 1)) by (apply Z.pow_pos_nonneg; lia).
  pose proof (Z.mod_pos_bound (v + 2 ^ (bits - 1)) (2 ^ bits)) as B.
  lia.
Qed.


Lemma c_short_small (v : Z) : -32768 <= v <= 32767 -> c_short v = v.
Proof.
  intros H. apply c_signed_small; [lia|]. unfold in_signed_range.
  change (2 ^ (16 - 1)) with 32768. lia.
Qed.


(* ------------------------------------------------------------------ *)
(** ** Rounding *)


Lemma inject_Z_pred (z : Z) : (inject_Z (z - 1) == inject_Z z - 1)%Q.
Proof. unfold Z.sub. rewrite inject_Z_plus, inject_Z_opp. reflexivity. Qed.

Lemma inject_Z_succ (z : Z) : (inject_Z (z + 1) == inject_Z z + 1)%Q.
Proof. rewrite inject_Z_plus. reflexivity. Qed.






Ltac split_Qabs x :=
  let P := fresh "P" in
  destruct (Qlt_le_dec x 0) as [P | P];
  [ rewrite (Qabs_neg x) in * by (apply Qlt_le_weak; exact P)
  | rewrite (Qabs_pos x) in * by exact P ].

(** The rounding mode determines the result: no other integer is nearest
    with ties away from zero. *)
Lemma nearest_ties_away_unique (q : Q) (z r : Z) :
  nearest_ties_away q z -> nearest_ties_away q r -> z = r.
Proof.
  intros [Az Tz] [Ar Tr].
  apply Qabs_Qle_condition in Az, Ar.
  assert (D : r - 1 <= z <= r + 1).
  { rewrite !Zle_Qle, inject_Z_pred, inject_Z_succ. lra. }
  assert (C : z = r - 1 \/ z = r \/ z = r + 1) by lia.
  destruct C as [C | [C | C]]; [| exact C |]; exfalso; subst z.
  - rewrite inject_Z_pred in *.
    assert (Ez : (inject_Z r - 1 - q == - (1 # 2))%Q) by lra.
    assert (Er : (inject_Z r - q == 1 # 2)%Q) by lra.
    rewrite Ez in Tz. rewrite Er in Tr.
    specialize (Tz eq_refl). specialize (Tr eq_refl).
    assert (S : r <= 0 \/ 1 <= r) by lia.
    rewrite !Zle_Qle in S. change (inject_Z 0) with 0%Q in S.
    change (inject_Z 1) with 1%Q in S.
    split_Qabs q; split_Qabs (inject_Z r); split_Qabs (inject_Z r - 1)%Q; lra.
  - rewrite inject_Z_succ in *.
    assert (Ez : (inject_Z r + 1 - q == 1 # 2)%Q) by lra.
    assert (Er : (inject_Z r - q == - (1 # 2))%Q) by lra.
    rewrite Ez in Tz. rewrite Er in Tr.
    specialize (Tz eq_refl). specialize (Tr eq_refl).
    assert (S : r <= -1 \/ 0 <= r) by lia.
    rewrite !Zle_Qle in S. change (inject_Z 0) with 0%Q in S.
    change (inject_Z (-1)) with (-1)%Q in S.
    split_Qabs q; split_Qabs (inject_Z r); split_Qabs (inject_Z r + 1)%Q; lra.
Qed.

(** Half-way cases, away from zero on both sides. *)
Example otRound_ties :
  otRound (1 # 2) = 1 /\ otRound (- (1 # 2)) = -1 /\
  otRound (5 # 2) = 3 /\ otRound (- (5 # 2)) = -3 /\
  otRound (7 # 5) = 1 /\ otRound (- (8 # 5)) = -2.
Proof. repeat split. Qed.

(* ------------------------------------------------------------------ *)
(** ** The drawing methods *)

Lemma last_contour_snoc (cs : list Contour.t) (c : Contour.t) :
  last_contour (cs ++ [c]) = (inr c, cs ++ [c]).
Proof. unfold last_contour. rewrite rev_unit. reflexivity. Qed.

Lemma append_point_snoc (p : Point) (t : Z) (cs : list Contour.t) (c : Contour.t) :
  append_point p t (cs ++ [c]) =
  (inr tt, cs ++ [Contour.make (Contour.points c ++ [p]) (Contour.tags c ++ [t])]).
Proof. unfold append_point. rewrite rev_unit, rev_involutive. reflexivity. Qed.

Lemma append_points_snoc (pts : list (Point * Z)) :
  forall (cs : list Contour.t) (c : Contour.t),
    append_points pts (cs ++ [c]) =
    (inr tt, cs ++ [Contour.make (Contour.points c ++ map fst pts)
                                 (Contour.tags c ++ map snd pts)]).
Proof.
  induction pts as [| [p t] rest IH]; intros cs c; simpl.
  - unfold ret. rewrite !app_nil_r. destruct c; reflexivity.
  - unfold bind. rewrite append_point_snoc, IH. simpl.
    rewrite <- !app_assoc. reflexivity.
Qed.

Lemma moveTo_eq (pt : Point) (cs : list Contour.t) :
  _moveTo pt cs = (inr tt, cs ++ [Contour.make [pt] [LINE]]).
Proof.
  unfold _moveTo, bind, append_contour. rewrite append_point_snoc. reflexivity.
Qed.

Lemma lineTo_eq (pt : Point) (cs : list Contour.t) (c : Contour.t) :
  _lineTo pt (cs ++ [c]) =
  (inr tt, cs ++ [Contour.make (Contour.points c ++ [pt]) (Contour.tags c ++ [LINE])]).
Proof.
  unfold _lineTo, bind. rewrite last_contour_snoc, append_point_snoc. reflexivity.
Qed.

Lemma curveToOne_eq (p1 p2 p3 : Point) (cs : list Contour.t) (c : Contour.t) :
  _curveToOne p1 p2 p3 (cs ++ [c]) =
  (inr tt, cs ++ [Contour.make (Contour.points c ++ [p1; p2; p3])
                               (Contour.tags c ++ [OFFCURVE; OFFCURVE; CURVE])]).
Proof.
  unfold _curveToOne, bind. rewrite last_contour_snoc, append_points_snoc.
  reflexivity.
Qed.

Lemma qCurveToOne_eq (p1 p2 : Point) (cs : list Contour.t) (c : Contour.t) :
  _qCurveToOne p1 p2 (cs ++ [c]) =
  (inr tt, cs ++ [Contour.make (Contour.points c ++ [p1; p2])
                               (Contour.tags c ++ [QOFFCURVE; QCURVE])]).
Proof.
  unfold _qCurveToOne, bind. rewrite last_contour_snoc, append_points_snoc.
  reflexivity.
Qed.

(** An append on a contour list [cs ++ [c]] extends [c] by the tagged
    points of the command; a move adds a contour. *)
Lemma exec_snoc (cmd : Command) (cs : list Contour.t) (c : Contour.t) :
  exec cmd (cs ++ [c]) =
  match cmd with
  | MoveTo pt => (inr tt, (cs ++ [c]) ++ [Contour.make [pt] [LINE]])
  | _ => (inr tt,
          cs ++ [Contour.make (Contour.points c ++ map fst (command_points cmd))
                              (Contour.tags c ++ map snd (command_points cmd))])
  end.
Proof.
  destruct cmd; simpl.
  - apply moveTo_eq.
  - apply lineTo_eq.
  - apply curveToOne_eq.
  - apply qCurveToOne_eq.
Qed.

Lemma exec_empty (cmd : Command) :
  exec cmd [] =
  match cmd with
  | MoveTo pt => (inr tt, [Contour.make [pt] [LINE]])
  | _ => (inl IndexError, [])
  end.
Proof. destruct cmd; reflexivity. Qed.

(** C2.  Whatever was drawn before (the contour list is arbitrary),
    [_moveTo] (beginContour) starts a new contour holding the start point
    tagged [LINE]; on an open contour [_lineTo] appends one point tagged
    [LINE], [_curveToOne] (cubicTo) appends exactly three points tagged
    [OFFCURVE], [OFFCURVE], [CURVE] in that order, and [_qCurveToOne]
    (quadTo) appends exactly two points tagged [QOFFCURVE], [QCURVE] in
    that order.  Earlier contours are left as they were. *)
Theorem accumulator_tags_points :
  (forall cs pt,
      _moveTo pt cs = (inr tt, cs ++ [Contour.make [pt] [tag_of LineEndpoint]])) /\
  (forall cs c pt,
      _lineTo pt (cs ++ [c]) =
      (inr tt, cs ++ [Contour.make (Contour.points c ++ [pt])
                                   (Contour.tags c ++ [tag_of LineEndpoint])])) /\
  (forall cs c p1 p2 p3,
      _curveToOne p1 p2 p3 (cs ++ [c]) =
      (inr tt, cs ++ [Contour.make
                        (Contour.points c ++ [p1; p2; p3])
                        (Contour.tags c ++ [tag_of CubicControl; tag_of CubicControl;
                                            tag_of CubicEndpoint])])) /\
  (forall cs c p1 p2,
      _qCurveToOne p1 p2 (cs ++ [c]) =
      (inr tt, cs ++ [Contour.make
                        (Contour.points c ++ [p1; p2])
                        (Contour.tags c ++ [tag_of QuadControl; tag_of QuadEndpoint])])).
Proof.
  repeat split; intros.
  - apply moveTo_eq.
  - apply lineTo_eq.
  - apply curveToOne_eq.
  - apply qCurveToOne_eq.
Qed.


(* ------------------------------------------------------------------ *)
(** ** Invariants of a drawing session *)

Lemma total_points_flat (cs : list Contour.t) :
  total_points cs = len (flat_points cs).
Proof.
  unfold len. induction cs as [| c rest IH]; simpl; [reflexivity|].
  rewrite IH, length_app. unfold len. lia.
Qed.

Lemma total_points_app (cs1 cs2 : list Contour.t) :
  total_points (cs1 ++ cs2) = total_points cs1 + total_points cs2.
Proof. induction cs1 as [| c rest IH]; simpl; lia. Qed.

Lemma total_points_nonneg (cs : list Contour.t) : 0 <= total_points cs.
Proof. rewrite total_points_flat. unfold len. lia. Qed.

Lemma balanced_flat (cs : list Contour.t) :
  balanced cs -> length (flat_tags cs) = length (flat_points cs).
Proof.
  unfold flat_tags, flat_points.
  induction 1 as [| c rest Hc _ IH]; simpl; [reflexivity|].
  rewrite !length_app. congruence.
Qed.

Lemma balanced_snoc (cs : list Contour.t) (c : Contour.t) :
  balanced (cs ++ [c]) <->
  balanced cs /\ length (Contour.tags c) = length (Contour.points c).
Proof.
  unfold balanced. rewrite Forall_app. split.
  - intros [H1 H2]. split; [exact H1 | now inversion H2].
  - intros [H1 H2]. split; [exact H1 | now constructor].
Qed.

Lemma flat_points_snoc (cs : list Contour.t) (c : Contour.t) :
  flat_points (cs ++ [c]) = flat_points cs ++ Contour.points c.
Proof. unfold flat_points. rewrite flat_map_app. simpl. now rewrite app_nil_r. Qed.

Lemma flat_tags_snoc (cs : list Contour.t) (c : Contour.t) :
  flat_tags (cs ++ [c]) = flat_tags cs ++ Contour.tags c.
Proof. unfold flat_tags. rewrite flat_map_app. simpl. now rewrite app_nil_r. Qed.

(** One successful command keeps the contours balanced and extends the
    flattened points and tags by what the command contributes. *)
Lemma exec_effect (cmd : Command) (cs cs' : list Contour.t) :
  exec cmd cs = (inr tt, cs') ->
  (balanced cs -> balanced cs') /\
  flat_points cs' = flat_points cs ++ map fst (command_points cmd) /\
  flat_tags cs' = flat_tags cs ++ map snd (command_points cmd) /\
  cs' <> [].
Proof.
  destruct cs as [| c0 rest] using rev_ind.
  - rewrite exec_empty. destruct cmd; intros E; inversion E; subst; clear E.
    repeat split; try reflexivity; try discriminate.
    intros _. constructor; [reflexivity | constructor].
  - clear IHrest. rewrite exec_snoc. intros E.
    assert (G : forall l (a : Contour.t), l ++ [a] <> []).
    { intros l a. destruct l; discriminate. }
    destruct cmd; inversion E; subst; clear E;
      rewrite ?flat_points_snoc, ?flat_tags_snoc; simpl;
      (split; [| split; [| split]]);
      rewrite <- ?app_assoc; auto.
    all: try solve [intros H; apply app_eq_nil in H; destruct H as [_ H];
                    discriminate H].
    all: unfold balanced; rewrite !Forall_app; intros [Hb Hc];
      inversion Hc; subst; repeat split; auto;
      repeat constructor; simpl; rewrite ?length_app; simpl; lia.
Qed.

Lemma exec_outcome (cmd : Command) (cs : list Contour.t) :
  (exists cs', exec cmd cs = (inr tt, cs')) \/
  exec cmd cs = (inl IndexError, cs).
Proof.
  destruct cs as [| c0 rest] using rev_ind.
  - rewrite exec_empty. destruct cmd; eauto.
  - rewrite exec_snoc. destruct cmd; eauto.
Qed.

Lemma run_effect (cmds : list Command) :
  forall cs cs',
    run cmds cs = (inr tt, cs') ->
    (balanced cs -> balanced cs') /\
    flat_points cs' = flat_points cs ++ map fst (flat_map command_points cmds) /\
    flat_tags cs' = flat_tags cs ++ map snd (flat_map command_points cmds) /\
    (cmds <> [] -> cs' <> []).
Proof.
  induction cmds as [| cmd rest IH]; intros cs cs' E; simpl in E.
  - inversion E; subst. simpl. rewrite !app_nil_r. repeat split; auto.
  - unfold bind in E.
    destruct (exec_outcome cmd cs) as [[cs1 E1] | E1]; rewrite E1 in E;
      [| discriminate].
    destruct (exec_effect _ _ _ E1) as (B1 & P1 & T1 & N1).
    destruct (IH _ _ E) as (B2 & P2 & T2 & N2).
    simpl. rewrite !map_app, !app_assoc, <- P1, <- T1.
    repeat split; auto.
    intros _. destruct rest as [| cmd' rest'].
    + simpl in E. inversion E; subst. exact N1.
    + apply N2. discriminate.
Qed.

(** A session on a fresh pen. *)
Lemma run_new_pen (cmds : list Command) (cs : list Contour.t) :
  run cmds new_pen = (inr tt, cs) ->
  balanced cs /\
  flat_points cs = map fst (flat_map command_points cmds) /\
  flat_tags cs = map snd (flat_map command_points cmds).
Proof.
  intros E. destruct (run_effect _ _ _ E) as (B & P & T & _).
  repeat split; auto. apply B. constructor.
Qed.

(* ------------------------------------------------------------------ *)
(** ** Outline assembly *)

Lemma c_array_exact {A} (n : Z) (zero : A) (xs : list A) :
  len xs = n -> c_array n zero xs = inr xs.
Proof.
  unfold len, c_array. intros <-.
  rewrite Z.leb_refl, Nat2Z.id, Nat.sub_diag. simpl. now rewrite app_nil_r.
Qed.

Lemma contour_ends_length (cs : list Contour.t) :
  forall acc, length (contour_ends acc cs) = length cs.
Proof. induction cs as [| c rest IH]; intros acc; simpl; [|rewrite IH]; reflexivity. Qed.

(** On balanced contours every array is filled exactly and [outline]
    returns. *)
Lemma outline_balanced (offset scale : option (Q * Q)) (evenOdd : bool)
    (cs : list Contour.t) :
  balanced cs ->
  outline offset scale evenOdd cs =
  inr (FT_Outline
         (c_short (len cs)) (c_short (total_points cs))
         (map (quantize (or_default offset (0, 0)%Q) (or_default scale (1, 1)%Q))
              (flat_points cs))
         (map c_ubyte (flat_tags cs))
         (map c_short (contour_ends 0 cs))
         (c_int (fill_flags evenOdd))).
Proof.
  intros B. unfold outline.
  rewrite c_array_exact
    by (unfold len; rewrite length_map; symmetry; apply total_points_flat).
  rewrite c_array_exact
    by (unfold len; rewrite length_map, (balanced_flat _ B); symmetry;
        apply total_points_flat).
  rewrite c_array_exact
    by (unfold len; now rewrite length_map, contour_ends_length).
  reflexivity.
Qed.


(* ------------------------------------------------------------------ *)
(** ** Quantisation *)

#[local] Instance otRound_comp : Proper (Qeq ==> eq) otRound.
Proof.
  intros a b E. unfold otRound. rewrite E.
  destruct (Qle_bool 0 b); [apply Qfloor_comp | apply Qceiling_comp];
    rewrite E; reflexivity.
Qed.

#[local] Instance quantize1_comp : Proper (Qeq ==> Qeq ==> Qeq ==> eq) quantize1.
Proof.
  intros o o' Eo s s' Es c c' Ec. unfold quantize1.
  rewrite Eo, Es, Ec. reflexivity.
Qed.








(* ------------------------------------------------------------------ *)
(** ** Scale is not validated *)




(* ------------------------------------------------------------------ *)
(** ** Tag encoding *)






(* ------------------------------------------------------------------ *)
(** ** Point count and contour ends *)

Lemma contour_ends_cumulative (cs : list Contour.t) :
  forall acc,
    contour_ends acc cs = map (fun s => s - 1) (cumulative acc (contour_sizes cs)).
Proof.
  induction cs as [| c rest IH]; intros acc; simpl; [reflexivity|].
  now rewrite IH.
Qed.

Lemma contour_ends_bounds (cs : list Contour.t) :
  forall acc,
    Forall (fun e => acc - 1 <= e <= acc + total_points cs - 1)
           (contour_ends acc cs).
Proof.
  induction cs as [| c rest IH]; intros acc; simpl; constructor.
  - pose proof (total_points_nonneg rest). unfold len. lia.
  - eapply Forall_impl; [| apply IH]. simpl. intros e H. unfold len in *. lia.
Qed.

Lemma contour_ends_last (cs : list Contour.t) :
  forall acc d,
    cs <> [] -> last (contour_ends acc cs) d = acc + total_points cs - 1.
Proof.
  induction cs as [| c rest IH]; intros acc d Hne; [now elim Hne|].
  destruct rest as [| c' rest'].
  - simpl. lia.
  - change (contour_ends acc (c :: c' :: rest'))
      with ((acc + len (Contour.points c) - 1)
              :: contour_ends (acc + len (Contour.points c)) (c' :: rest')).
    change (total_points (c :: c' :: rest'))
      with (len (Contour.points c) + total_points (c' :: rest')).
    assert (N : contour_ends (acc + len (Contour.points c)) (c' :: rest') <> [])
      by (simpl; discriminate).
    destruct (contour_ends (acc + len (Contour.points c)) (c' :: rest'))
      as [| e es] eqn:Ee; [now elim N|].
    change (last ((acc + len (Contour.points c) - 1) :: e :: es) d)
      with (last (e :: es) d).
    rewrite <- Ee, IH by discriminate. lia.
Qed.

Lemma map_c_short_small (l : list Z) :
  Forall (fun e => -32768 <= e <= 32767) l -> map c_short l = l.
Proof.
  induction 1 as [| e rest He _ IH]; simpl; [reflexivity|].
  now rewrite IH, c_short_small.
Qed.

Lemma last_map {A B} (f : A -> B) (l : list A) (d : A) :
  last (map f l) (f d) = f (last l d).
Proof.
  induction l as [| a [| b rest] IH]; simpl in *; auto.
Qed.

(** C3 (amended).  After a drawing session whose accumulated points
    number at most 32767 (the count and the contour ends are C shorts),
    the outline's point count is the number of points the commands
    appended, which is the sum of the per-contour counts; the point and tag
    arrays have that length; the contour ends are the cumulative
    per-contour counts minus one; and the end of the last contour is the
    point count minus one. *)
Theorem outline_counts_and_ends
    (cmds : list Command) (cs : list Contour.t)
    (offset scale : option (Q * Q)) (evenOdd : bool) :
  run cmds new_pen = (inr tt, cs) ->
  total_points cs <= 32767 ->
  exists o,
    outline offset scale evenOdd cs = inr o /\
    FT.n_points o = len (flat_map command_points cmds) /\
    FT.n_points o = total_points cs /\
    len (FT.points o) = FT.n_points o /\
    len (FT.tags o) = FT.n_points o /\
    FT.contours o = map (fun s => s - 1) (cumulative 0 (contour_sizes cs)) /\
    (forall d, cmds <> [] -> last (FT.contours o) d = FT.n_points o - 1).
Proof.
  intros E Hmax.
  destruct (run_effect _ _ _ E) as (B & P & T & N).
  assert (Bcs : balanced cs) by (apply B; constructor).
  pose proof (total_points_nonneg cs) as Hmin.
  assert (Ends : map c_short (contour_ends 0 cs) = contour_ends 0 cs).
  { apply map_c_short_small.
    eapply Forall_impl; [| apply contour_ends_bounds]. simpl. lia. }
  eexists. split; [apply outline_balanced; exact Bcs|].
  simpl. rewrite Ends, c_short_small by lia.
  repeat split.
  - rewrite total_points_flat, P. unfold len. simpl.
    now rewrite length_map.
  - unfold len. rewrite length_map. symmetry. apply total_points_flat.
  - unfold len. rewrite length_map, (balanced_flat _ Bcs). symmetry.
    apply total_points_flat.
  - apply contour_ends_cumulative.
  - intros d Hne. rewrite contour_ends_last by auto. lia.
Qed.

Lemma outline_counts_and_ends_witness :
  exists o,
    outline None None false square = inr o /\
    FT.n_points o = 4 /\
    FT.contours o = [3] /\
    last (FT.contours o) 0 = FT.n_points o - 1.
Proof.
  destruct (outline_counts_and_ends square_cmds square None None false eq_refl)
    as (o & Ho & _ & Hn & _ & _ & Hc & Hl).
  - vm_compute. discriminate.
  - exists o. repeat split; [exact Ho | exact Hn | exact Hc |].
    apply Hl. discriminate.
Defined.

Lemma run_lines (n : nat) :
  forall pts tags,
    run (repeat (LineTo (1, 0)%Q) n) [Contour.make pts tags] =
    (inr tt, [Contour.make (pts ++ repeat (1, 0)%Q n) (tags ++ repeat LINE n)]).
Proof.
  induction n as [| n IH]; intros pts tags; cbn [run repeat exec].
  - unfold ret. now rewrite !app_nil_r.
  - unfold bind.
    pose proof (lineTo_eq (1, 0)%Q [] (Contour.make pts tags)) as L.
    cbn [app Contour.points Contour.tags] in L. rewrite L.
    rewrite IH, <- !app_assoc. reflexivity.
Qed.

Lemma run_polyline (n : nat) :
  run (polyline_cmds n) new_pen = (inr tt, polyline n).
Proof.
  unfold polyline_cmds, polyline, new_pen.
  change (run (MoveTo (0, 0)%Q :: repeat (LineTo (1, 0)%Q) n) [])
    with (bind (_moveTo (0, 0)%Q) (fun _ => run (repeat (LineTo (1, 0)%Q) n)) []).
  unfold bind. rewrite moveTo_eq. cbn [app]. apply run_lines.
Qed.

Lemma polyline_balanced (n : nat) : balanced (polyline n).
Proof.
  constructor; [| constructor]. simpl. now rewrite !repeat_length.
Qed.

Lemma polyline_total (n : nat) : total_points (polyline n) = Z.of_nat n + 1.
Proof.
  unfold polyline. cbn [total_points Contour.points]. unfold len.
  cbn [length]. rewrite repeat_length. lia.
Qed.

Lemma polyline_ends (n : nat) : contour_ends 0 (polyline n) = [Z.of_nat n].
Proof.
  unfold polyline. cbn [contour_ends Contour.points]. unfold len.
  cbn [length]. rewrite repeat_length. f_equal. lia.
Qed.

(** C3 as stated fails from 32768 points on: the count is stored in a C
    short and comes out negative, so it is neither the number of points
    appended nor one more than the end of the last contour. *)
Lemma point_count_wraps_at_32768 :
  exists cs o,
    run (polyline_cmds (Z.to_nat 32767)) new_pen = (inr tt, cs) /\
    outline None None false cs = inr o /\
    total_points cs = 32768 /\
    FT.n_points o = -32768 /\
    FT.contours o = [32767].
Proof.
  exists (polyline (Z.to_nat 32767)). eexists.
  split; [apply run_polyline|].
  split; [apply outline_balanced, polyline_balanced|].
  cbn [FT.n_points FT.contours].
  rewrite polyline_total, polyline_ends, Z2Nat.id by lia.
  repeat split.
Qed.

(* ------------------------------------------------------------------ *)
(** ** Canvas sizing *)


Section RasterizerFacts.

Variable FT_Outline_Get_BBox : FT.Outline -> FT.BBox.
Variable FT_Outline_Get_Bitmap : FT.Outline -> FT.Bitmap -> Z * list Z.

(** With [contain] the canvas computed for a drawing session. *)
Lemma canvas_contain (cs : list Contour.t) (offset : option (Q * Q))
    (W H : Q) (scale : option (Q * Q)) :
  balanced cs ->
  exists b0 b1 b2 b3,
    bbox FT_Outline_Get_BBox cs = inr (b0, b1, b2, b3) /\
    canvas FT_Outline_Get_BBox offset W H scale true cs =
    inr ((Qmin (fst (or_default offset (0, 0)%Q)) b0 * -1)%Q,
         (Qmin (snd (or_default offset (0, 0)%Q)) b1 * -1)%Q,
         or_default scale (1, 1)%Q,
         (Qceiling (Qmax W (b2 - b0) * fst (or_default scale (1, 1)%Q)),
          Qceiling (Qmax H (b3 - b1) * snd (or_default scale (1, 1)%Q)))).
Proof.
  intros B. unfold canvas, bbox.
  rewrite (outline_balanced None None false cs B).
  destruct (box_of _) as [[[b0 b1] b2] b3].
  exists b0, b1, b2, b3. split; [reflexivity|].
  destruct (or_default offset (0, 0)%Q) as [ox oy]. reflexivity.
Qed.


End RasterizerFacts.



(** C6 fails on the code.  The box spans x from 50 to 650; with [contain],
    a requested canvas of 600 by 700 and no offset, the offset stays zero
    and the canvas stays 600 wide, so the right 50 pixels of the box lie
    outside: the outline handed to the renderer has a point at pixel
    column 650. *)
Lemma contain_clips_overhang :
  run overhang_cmds new_pen = (inr tt, overhang) /\
  bbox points_box overhang = inr (3200 # 64, 0 # 64, 41600 # 64, 44800 # 64)%Q /\
  canvas points_box None 600 700 None true overhang =
  inr (0%Q, 0%Q, (1%Q, 1%Q), (600, 700)) /\
  ~ fits_canvas (3200 # 64, 0 # 64, 41600 # 64, 44800 # 64)%Q 0 0 1 1 600 700 /\
  exists o,
    outline (Some (0, 0)%Q) (Some (1, 1)%Q) false overhang = inr o /\
    In (FT_Vector (650 * 64) 0) (FT.points o).
Proof.
  split; [reflexivity|]. split; [reflexivity|]. split; [reflexivity|]. split.
  - intros (_ & Hright & _). vm_compute in Hright. apply Hright. reflexivity.
  - eexists. split; [reflexivity|]. simpl. auto.
Qed.

(* ------------------------------------------------------------------ *)
(** ** Boxes *)

Lemma dequantize_monotone (v w : Z) :
  v <= w -> (dequantize v <= dequantize w)%Q.
Proof.
  intros H. unfold dequantize, Qdiv.
  apply Qmult_le_compat_r; [| discriminate].
  now rewrite <- Zle_Qle.
Qed.

(** Both box properties hand FreeType one and the same outline, the
    accumulated points under the identity transform, and scale its answer
    down by 64; whatever ordering FreeType guarantees between the corners
    of its two boxes carries over to the pixel boxes. *)
Lemma boxes_share_outline
    (get_bbox get_cbox : FT.Outline -> FT.BBox) (cs : list Contour.t) :
  balanced cs ->
  exists o,
    outline None None false cs = inr o /\
    bbox get_bbox cs = inr (box_of (get_bbox o)) /\
    cbox get_cbox cs = inr (box_of (get_cbox o)).
Proof.
  intros B. eexists. split; [apply outline_balanced; exact B|].
  unfold bbox, cbox. rewrite (outline_balanced _ _ _ _ B). split; reflexivity.
Qed.

(** Where [contain] does keep the box on the canvas: when the lower left
    corner of the box is not above or right of the requested offset (as
    for a glyph with negative left side bearing or a descender, drawn with
    the default offset) and the scale is not negative. *)
Lemma contain_fits_lower_left
    (get_bbox : FT.Outline -> FT.BBox) (cs : list Contour.t)
    (offset : option (Q * Q)) (W H : Q) (scale : option (Q * Q))
    (b0 b1 b2 b3 : Q) :
  balanced cs ->
  bbox get_bbox cs = inr (b0, b1, b2, b3) ->
  (b0 <= fst (or_default offset (0, 0)%Q))%Q ->
  (b1 <= snd (or_default offset (0, 0)%Q))%Q ->
  (0 <= fst (or_default scale (1, 1)%Q))%Q ->
  (0 <= snd (or_default scale (1, 1)%Q))%Q ->
  exists ox oy w h,
    canvas get_bbox offset W H scale true cs =
    inr (ox, oy, or_default scale (1, 1)%Q, (w, h)) /\
    fits_canvas (b0, b1, b2, b3) ox oy
      (fst (or_default scale (1, 1)%Q)) (snd (or_default scale (1, 1)%Q)) w h.
Proof.
  intros B Hb Hx Hy Hsx Hsy.
  destruct (canvas_contain get_bbox cs offset W H scale B)
    as (c0 & c1 & c2 & c3 & Hb' & Hc).
  rewrite Hb in Hb'. inversion Hb'; subst c0 c1 c2 c3. clear Hb'.
  do 4 eexists. split; [exact Hc|].
  set (sx := fst (or_default scale (1, 1)%Q)) in *.
  set (sy := snd (or_default scale (1, 1)%Q)) in *.
  set (ox := fst (or_default offset (0, 0)%Q)) in *.
  set (oy := snd (or_default offset (0, 0)%Q)) in *.
  pose proof (Q.min_r ox b0 Hx) as Mx.
  pose proof (Q.min_r oy b1 Hy) as My.
  pose proof (Q.le_max_r W (b2 - b0)) as Lw.
  pose proof (Q.le_max_r H (b3 - b1)) as Lh.
  pose proof (Qle_ceiling (Qmax W (b2 - b0) * sx)) as Cw.
  pose proof (Qle_ceiling (Qmax H (b3 - b1) * sy)) as Ch.
  unfold fits_canvas.
  generalize dependent (Qmin ox b0). generalize dependent (Qmin oy b1).
  generalize dependent (Qmax W (b2 - b0)). generalize dependent (Qmax H (b3 - b1)).
  intros mh Lh Ch mw Lw Cw ny My nx Mx.
  repeat split; nra.
Qed.

(* ================================================================== *)
(** * Further properties of the pen *)

(* ------------------------------------------------------------------ *)
(** ** Sessions *)

Lemma run_app (a b : list Command) (cs : list Contour.t) :
  run (a ++ b) cs =
  match run a cs with
  | (inr _, cs') => run b cs'
  | (inl e, cs') => (inl e, cs')
  end.
Proof.
  revert cs. induction a as [| cmd rest IH]; intros cs; simpl; [reflexivity|].
  unfold bind. destruct (exec cmd cs) as [[e | []] cs1]; [reflexivity | apply IH].
Qed.

(** With a contour open, a session runs to its end and leaves the earlier
    contours alone. *)
Lemma run_open (cmds : list Command) :
  forall cs c,
  exists tail,
    run cmds (cs ++ [c]) = (inr tt, cs ++ tail) /\ tail <> [].
Proof.
  induction cmds as [| cmd rest IH]; intros cs c.
  - exists [c]. split; [reflexivity | discriminate].
  - cbn [run]. unfold bind. rewrite exec_snoc.
    destruct cmd.
    + destruct (IH (cs ++ [c]) (Contour.make [pt] [LINE])) as (tail & E & N).
      exists (c :: tail). rewrite E, <- app_assoc. split; [reflexivity | discriminate].
    + apply IH.
    + apply IH.
    + apply IH.
Qed.

(** X1.  A session on a fresh pen succeeds exactly when it is empty or
    starts with a move: an empty session leaves the pen empty, a session
    starting with [MoveTo] runs to its end whatever follows, and any other
    session raises [IndexError] at its first command with nothing
    recorded. *)
Theorem session_outcome (cmds : list Command) :
  match cmds with
  | [] => run cmds new_pen = (inr tt, [])
  | MoveTo _ :: _ => exists cs, run cmds new_pen = (inr tt, cs) /\ cs <> []
  | _ :: _ => run cmds new_pen = (inl IndexError, [])
  end.
Proof.
  destruct cmds as [| [pt | pt | p1 p2 p3 | p1 p2] rest]; try reflexivity.
  cbn [run exec]. unfold bind, new_pen. rewrite moveTo_eq. cbn [app].
  destruct (run_open rest [] (Contour.make [pt] [LINE])) as (tail & E & N).
  exists tail. split; [exact E | exact N].
Qed.

(** X2.  Once a contour is open no drawing command raises, and the
    contours before the open one are never touched: from a contour list
    [cs ++ [c]] every session succeeds and ends in [cs] followed by the
    continuation of [c] and the contours begun since. *)
Theorem open_contour_session (cmds : list Command) (cs : list Contour.t)
    (c : Contour.t) :
  exists c' later,
    run cmds (cs ++ [c]) = (inr tt, cs ++ c' :: later) /\
    flat_points (c' :: later) =
      Contour.points c ++ map fst (flat_map command_points cmds) /\
    flat_tags (c' :: later) =
      Contour.tags c ++ map snd (flat_map command_points cmds).
Proof.
  destruct (run_open cmds cs c) as (tail & E & N).
  destruct tail as [| c' later]; [now elim N|].
  exists c', later. split; [exact E|].
  destruct (run_effect _ _ _ E) as (_ & P & T & _).
  rewrite flat_points_snoc in P. rewrite flat_tags_snoc in T.
  unfold flat_points, flat_tags in *. rewrite !flat_map_app in *.
  rewrite <- !app_assoc in P, T.
  apply app_inv_head in P. apply app_inv_head in T.
  split; assumption.
Qed.

Lemma run_length (cmds : list Command) :
  forall cs cs',
    run cmds cs = (inr tt, cs') -> len cs' = len cs + count_moves cmds.
Proof.
  induction cmds as [| cmd rest IH]; intros cs cs' E.
  - inversion E; subst. simpl. lia.
  - cbn [run] in E. unfold bind in E.
    destruct (exec_outcome cmd cs) as [[cs1 E1] | E1]; rewrite E1 in E;
      [| discriminate].
    rewrite (IH _ _ E).
    assert (L : len cs1 = len cs + match cmd with MoveTo _ => 1 | _ => 0 end).
    { destruct cs as [| c0 r] using rev_ind.
      - rewrite exec_empty in E1. destruct cmd; inversion E1; reflexivity.
      - rewrite exec_snoc in E1. unfold len.
        destruct cmd; inversion E1; subst; rewrite ?length_app; simpl.
        all: lia. }
    rewrite L. destruct cmd; cbn [count_moves]; lia.
Qed.

(** X3.  A session begins one contour per [MoveTo]: with at most 32767
    moves the outline's contour count and the length of its array of
    contour ends are the number of [MoveTo] commands. *)
Theorem contour_count_is_move_count
    (cmds : list Command) (cs : list Contour.t)
    (offset scale : option (Q * Q)) (evenOdd : bool) :
  run cmds new_pen = (inr tt, cs) ->
  count_moves cmds <= 32767 ->
  len cs = count_moves cmds /\
  exists o,
    outline offset scale evenOdd cs = inr o /\
    FT.n_contours o = count_moves cmds /\
    len (FT.contours o) = count_moves cmds.
Proof.
  intros E Hmax.
  pose proof (run_length _ _ _ E) as L. change (len new_pen) with 0 in L.
  destruct (run_new_pen _ _ E) as (B & _ & _).
  split; [lia|].
  eexists. split; [apply outline_balanced; exact B|]. simpl.
  assert (0 <= len cs) by (unfold len; lia).
  rewrite c_short_small by lia. split; [lia|].
  unfold len in *. rewrite length_map, contour_ends_length. lia.
Qed.

Lemma contour_count_is_move_count_witness :
  exists o,
    outline None None false square = inr o /\
    FT.n_contours o = 1 /\ len (FT.contours o) = 1.
Proof.
  destruct (contour_count_is_move_count square_cmds square None None false eq_refl)
    as (_ & o & H).
  - vm_compute. discriminate.
  - exists o. exact H.
Defined.

Lemma hd_error_app {A} (l l' : list A) :
  l <> [] -> hd_error (l ++ l') = hd_error l.
Proof. destruct l; [intros H; now elim H | reflexivity]. Qed.

Lemma starts_snoc (cs : list Contour.t) (c : Contour.t) :
  starts (cs ++ [c]) =
  starts cs ++ [(hd_error (Contour.points c), hd_error (Contour.tags c))].
Proof. unfold starts. now rewrite map_app. Qed.

Lemma opened_snoc (cs : list Contour.t) (c : Contour.t) :
  opened (cs ++ [c]) <->
  opened cs /\ Contour.points c <> [] /\ Contour.tags c <> [].
Proof.
  unfold opened. rewrite Forall_app. split.
  - intros [H1 H2]. split; [exact H1 | now inversion H2].
  - intros [H1 H2]. split; [exact H1 | now constructor].
Qed.

Lemma exec_starts (cmd : Command) (cs cs' : list Contour.t) :
  opened cs ->
  exec cmd cs = (inr tt, cs') ->
  opened cs' /\
  starts cs' = starts cs ++ map (fun p => (Some p, Some LINE)) (move_points [cmd]).
Proof.
  intros O E. destruct cs as [| c0 r] using rev_ind.
  - rewrite exec_empty in E. destruct cmd; inversion E; subst.
    split; [| reflexivity]. constructor; [split; discriminate | constructor].
  - clear IHr. rewrite exec_snoc in E.
    apply opened_snoc in O. destruct O as (Or & Op & Ot).
    assert (G : forall (A : Type) (l l' : list A), l <> [] -> l ++ l' <> []).
    { intros A l l' H F. apply app_eq_nil in F. now destruct F. }
    destruct cmd; inversion E; subst; clear E;
      rewrite ?starts_snoc; cbn [Contour.points Contour.tags move_points map];
      rewrite ?hd_error_app, ?app_nil_r by assumption.
    + split; [| reflexivity].
      apply opened_snoc. split; [apply opened_snoc; auto|].
      split; discriminate.
    + split; [apply opened_snoc; cbn; auto | reflexivity].
    + split; [apply opened_snoc; cbn; auto | reflexivity].
    + split; [apply opened_snoc; cbn; auto | reflexivity].
Qed.

Lemma run_starts (cmds : list Command) :
  forall cs cs',
    opened cs ->
    run cmds cs = (inr tt, cs') ->
    opened cs' /\
    starts cs' = starts cs ++ map (fun p => (Some p, Some LINE)) (move_points cmds).
Proof.
  induction cmds as [| cmd rest IH]; intros cs cs' O E.
  - inversion E; subst. simpl. now rewrite app_nil_r.
  - cbn [run] in E. unfold bind in E.
    destruct (exec_outcome cmd cs) as [[cs1 E1] | E1]; rewrite E1 in E;
      [| discriminate].
    destruct (exec_starts _ _ _ O E1) as (O1 & S1).
    destruct (IH _ _ O1 E) as (O2 & S2).
    split; [exact O2|]. rewrite S2, S1, <- app_assoc, <- map_app.
    destruct cmd; reflexivity.
Qed.

(** X4.  After a session on a fresh pen the contours are, in order, those
    begun by its [MoveTo] commands: each contour starts with the point of
    its move, tagged [LINE], whatever was appended to it afterwards. *)
Theorem contours_start_at_moves (cmds : list Command) (cs : list Contour.t) :
  run cmds new_pen = (inr tt, cs) ->
  starts cs = map (fun p => (Some p, Some LINE)) (move_points cmds).
Proof.
  intros E. destruct (run_starts cmds [] cs) as (_ & S); [constructor | exact E|].
  exact S.
Qed.

Lemma contours_start_at_moves_witness :
  starts square = [(Some (10, 0)%Q, Some 1)].
Proof. exact (contours_start_at_moves square_cmds square eq_refl). Defined.

Lemma contour_ends_sorted (cs : list Contour.t) :
  opened cs ->
  forall acc,
    StronglySorted Z.lt (contour_ends acc cs) /\
    Forall (fun e => acc <= e) (contour_ends acc cs).
Proof.
  induction 1 as [| c rest [Hp _] _ IH]; intros acc; simpl.
  - split; constructor.
  - assert (L : 1 <= len (Contour.points c)).
    { unfold len. destruct (Contour.points c); [now elim Hp | simpl; lia]. }
    destruct (IH (acc + len (Contour.points c))) as (S & F).
    split.
    + constructor; [exact S|].
      eapply Forall_impl; [| exact F]. simpl. intros e He. lia.
    + constructor; [lia|].
      eapply Forall_impl; [| exact F]. simpl. intros e He. lia.
Qed.

(** X5.  For a session of at most 32767 points the contour ends of the
    outline are strictly increasing indices into the point array: every
    contour is non-empty, so no two contours end at the same point, and
    each end lies between 0 and the point count minus one. *)
Theorem contour_ends_increase
    (cmds : list Command) (cs : list Contour.t)
    (offset scale : option (Q * Q)) (evenOdd : bool) :
  run cmds new_pen = (inr tt, cs) ->
  total_points cs <= 32767 ->
  exists o,
    outline offset scale evenOdd cs = inr o /\
    StronglySorted Z.lt (FT.contours o) /\
    Forall (fun e => 0 <= e < FT.n_points o) (FT.contours o).
Proof.
  intros E Hmax.
  destruct (run_new_pen _ _ E) as (B & _ & _).
  destruct (run_starts cmds [] cs) as (O & _); [constructor | exact E|].
  destruct (contour_ends_sorted cs O 0) as (S & F).
  pose proof (contour_ends_bounds cs 0) as U.
  pose proof (total_points_nonneg cs) as Hmin.
  assert (Ends : map c_short (contour_ends 0 cs) = contour_ends 0 cs).
  { apply map_c_short_small.
    eapply Forall_impl; [| exact U]. simpl. lia. }
  eexists. split; [apply outline_balanced; exact B|].
  simpl. rewrite Ends, c_short_small by lia.
  split; [exact S|].
  rewrite Forall_forall in *. intros e He.
  specialize (F e He). specialize (U e He). simpl in U. lia.
Qed.

Lemma contour_ends_increase_witness :
  exists o,
    outline None None false square = inr o /\
    StronglySorted Z.lt (FT.contours o) /\
    Forall (fun e => 0 <= e < FT.n_points o) (FT.contours o).
Proof.
  apply (contour_ends_increase square_cmds square None None false eq_refl).
  vm_compute. discriminate.
Defined.

(* ------------------------------------------------------------------ *)
(** ** Outlines of arbitrary contour lists *)



(* ------------------------------------------------------------------ *)
(** ** Rendering *)

Lemma canvas_plain (get_bbox : FT.Outline -> FT.BBox) (cs : list Contour.t)
    (offset : option (Q * Q)) (W H : Q) (scale : option (Q * Q)) :
  canvas get_bbox offset W H scale false cs =
  inr (fst (or_default offset (0, 0)%Q), snd (or_default offset (0, 0)%Q),
       or_default scale (1, 1)%Q,
       (Qceiling (W * fst (or_default scale (1, 1)%Q)),
        Qceiling (H * snd (or_default scale (1, 1)%Q)))).
Proof.
  unfold canvas. destruct (or_default offset (0, 0)%Q) as [ox oy]. reflexivity.
Qed.

Lemma buffer_size_from_canvas
    (get_bbox : FT.Outline -> FT.BBox)
    (render : FT.Outline -> FT.Bitmap -> Z * list Z)
    (offset : option (Q * Q)) (W H : Q) (evenOdd : bool)
    (scale : option (Q * Q)) (contain : bool) (cs : list Contour.t)
    (raw : list Z) (w h : Z) :
  buffer get_bbox render offset W H evenOdd scale contain cs = inr (raw, (w, h)) ->
  exists ox oy sc,
    canvas get_bbox offset W H scale contain cs = inr (ox, oy, sc, (w, h)).
Proof.
  unfold buffer.
  destruct (canvas _ _ _ _ _ _ _) as [e | [[[ox oy] sc] [w' h']]]; [discriminate|].
  destruct (w' * h' <? 0); [discriminate|].
  destruct (outline _ _ _ _) as [e | o]; [discriminate|].
  destruct (render _ _) as [err raw'].
  destruct (negb (err =? 0)); [discriminate|].
  intros E. inversion E; subst. eauto.
Qed.



Section RenderingFacts.

Variable FT_Outline_Get_BBox : FT.Outline -> FT.BBox.
Variable FT_Outline_Get_Bitmap : FT.Outline -> FT.Bitmap -> Z * list Z.



(** X9.  With a scale that is not negative, asking for [contain] never
    gives a smaller bitmap than the same call without it. *)
Theorem contain_never_smaller
    (cmds : list Command) (cs : list Contour.t) (offset : option (Q * Q))
    (W H : Q) (evenOdd : bool) (scale : option (Q * Q))
    (raw0 raw1 : list Z) (w0 h0 w1 h1 : Z) :
  run cmds new_pen = (inr tt, cs) ->
  (0 <= fst (or_default scale (1, 1)%Q))%Q ->
  (0 <= snd (or_default scale (1, 1)%Q))%Q ->
  buffer FT_Outline_Get_BBox FT_Outline_Get_Bitmap
         offset W H evenOdd scale false cs = inr (raw0, (w0, h0)) ->
  buffer FT_Outline_Get_BBox FT_Outline_Get_Bitmap
         offset W H evenOdd scale true cs = inr (raw1, (w1, h1)) ->
  w0 <= w1 /\ h0 <= h1.
Proof.
  intros E Hsx Hsy E0 E1.
  destruct (run_new_pen _ _ E) as (B & _ & _).
  apply buffer_size_from_canvas in E0, E1.
  destruct E0 as (? & ? & ? & C0). destruct E1 as (? & ? & ? & C1).
  rewrite canvas_plain in C0.
  destruct (canvas_contain FT_Outline_Get_BBox cs offset W H scale B)
    as (b0 & b1 & b2 & b3 & _ & Hc).
  rewrite Hc in C1. inversion C0; subst. inversion C1; subst.
  split; apply Qceiling_resp_le.
  - pose proof (Q.le_max_l W (b2 - b0)). nra.
  - pose proof (Q.le_max_l H (b3 - b1)). nra.
Qed.

(** X10.  With [contain] and a scale that is not negative, the left and
    lower edges of the bounding box are never cut off and the canvas is at
    least as wide and as high as the scaled box, whatever offset and size
    were requested.  The final offset is the larger of the negated
    requested offset and the negated box minimum. *)
Theorem contain_keeps_lower_left
    (cmds : list Command) (cs : list Contour.t) (offset : option (Q * Q))
    (W H : Q) (scale : option (Q * Q)) :
  run cmds new_pen = (inr tt, cs) ->
  (0 <= fst (or_default scale (1, 1)%Q))%Q ->
  (0 <= snd (or_default scale (1, 1)%Q))%Q ->
  exists b0 b1 b2 b3 ox oy w h,
    bbox FT_Outline_Get_BBox cs = inr (b0, b1, b2, b3) /\
    canvas FT_Outline_Get_BBox offset W H scale true cs =
    inr (ox, oy, or_default scale (1, 1)%Q, (w, h)) /\
    (ox == Qmax (- fst (or_default offset (0, 0))) (- b0))%Q /\
    (oy == Qmax (- snd (or_default offset (0, 0))) (- b1))%Q /\
    (0 <= (b0 + ox) * fst (or_default scale (1, 1)))%Q /\
    (0 <= (b1 + oy) * snd (or_default scale (1, 1)))%Q /\
    ((b2 - b0) * fst (or_default scale (1, 1)) <= inject_Z w)%Q /\
    ((b3 - b1) * snd (or_default scale (1, 1)) <= inject_Z h)%Q.
Proof.
  intros E Hsx Hsy.
  destruct (run_new_pen _ _ E) as (B & _ & _).
  destruct (canvas_contain FT_Outline_Get_BBox cs offset W H scale B)
    as (b0 & b1 & b2 & b3 & Hb & Hc).
  exists b0, b1, b2, b3. do 4 eexists.
  split; [exact Hb|]. split; [exact Hc|].
  set (sx := fst (or_default scale (1, 1)%Q)) in *.
  set (sy := snd (or_default scale (1, 1)%Q)) in *.
  set (rx := fst (or_default offset (0, 0)%Q)) in *.
  set (ry := snd (or_default offset (0, 0)%Q)) in *.
  assert (Mx : (Qmin rx b0 * -1 == Qmax (- rx) (- b0))%Q).
  { destruct (Qlt_le_dec b0 rx) as [L | L].
    - rewrite (Q.min_r rx b0), (Q.max_r (- rx) (- b0)) by lra. ring.
    - rewrite (Q.min_l rx b0), (Q.max_l (- rx) (- b0)) by lra. ring. }
  assert (My : (Qmin ry b1 * -1 == Qmax (- ry) (- b1))%Q).
  { destruct (Qlt_le_dec b1 ry) as [L | L].
    - rewrite (Q.min_r ry b1), (Q.max_r (- ry) (- b1)) by lra. ring.
    - rewrite (Q.min_l ry b1), (Q.max_l (- ry) (- b1)) by lra. ring. }
  pose proof (Q.le_min_r rx b0) as Lx.
  pose proof (Q.le_min_r ry b1) as Ly.
  pose proof (Q.le_max_r W (b2 - b0)) as Lw.
  pose proof (Q.le_max_r H (b3 - b1)) as Lh.
  pose proof (Qle_ceiling (Qmax W (b2 - b0) * sx)) as Cw.
  pose proof (Qle_ceiling (Qmax H (b3 - b1) * sy)) as Ch.
  split; [exact Mx|]. split; [exact My|].
  clear Mx My.
  generalize dependent (Qmin rx b0). generalize dependent (Qmin ry b1).
  generalize dependent (Qmax W (b2 - b0)). generalize dependent (Qmax H (b3 - b1)).
  intros mh Lh Ch mw Lw Cw ny Ly nx Lx.
  repeat split; nra.
Qed.

End RenderingFacts.



Lemma contain_never_smaller_witness : 20 <= 50 /\ 20 <= 50.
Proof.
  apply (contain_never_smaller points_box blank_renderer square_cmds square
           None 20 20 false None
           (repeat 0 (Z.to_nat 400)) (repeat 0 (Z.to_nat 2500)) 20 20 50 50 eq_refl);
    vm_compute; try discriminate; reflexivity.
Defined.

Lemma contain_keeps_lower_left_witness :
  exists b0 b1 b2 b3 ox oy w h,
    bbox points_box square = inr (b0, b1, b2, b3) /\
    canvas points_box (Some (-30, 0)%Q) 20 20 None true square =
    inr (ox, oy, (1, 1)%Q, (w, h)) /\
    (ox == Qmax (- (-30)) (- b0))%Q /\
    (oy == Qmax (- 0) (- b1))%Q /\
    (0 <= (b0 + ox) * 1)%Q /\
    (0 <= (b1 + oy) * 1)%Q /\
    ((b2 - b0) * 1 <= inject_Z w)%Q /\
    ((b3 - b1) * 1 <= inject_Z h)%Q.
Proof.
  apply (contain_keeps_lower_left points_box square_cmds square
           (Some (-30, 0)%Q) 20 20 None eq_refl);
    vm_compute; discriminate.
Defined.

(** X11.  With [contain], a scale that is not negative and a requested
    offset at or beyond the lower left corner of the bounding box in both
    directions (the default offset for a glyph that reaches left of or
    below the origin), the whole box lies on the canvas: the box is moved
    to the origin and the canvas grows to the size of the box. *)
Theorem contain_fits_requested_corner
    (get_bbox : FT.Outline -> FT.BBox)
    (cmds : list Command) (cs : list Contour.t)
    (offset : option (Q * Q)) (W H : Q) (scale : option (Q * Q))
    (b0 b1 b2 b3 : Q) :
  run cmds new_pen = (inr tt, cs) ->
  bbox get_bbox cs = inr (b0, b1, b2, b3) ->
  (b0 <= fst (or_default offset (0, 0)%Q))%Q ->
  (b1 <= snd (or_default offset (0, 0)%Q))%Q ->
  (0 <= fst (or_default scale (1, 1)%Q))%Q ->
  (0 <= snd (or_default scale (1, 1)%Q))%Q ->
  exists ox oy w h,
    canvas get_bbox offset W H scale true cs =
    inr (ox, oy, or_default scale (1, 1)%Q, (w, h)) /\
    fits_canvas (b0, b1, b2, b3) ox oy
      (fst (or_default scale (1, 1)%Q)) (snd (or_default scale (1, 1)%Q)) w h.
Proof.
  intros E. destruct (run_new_pen _ _ E) as (B & _ & _).
  now apply contain_fits_lower_left.
Qed.

Lemma contain_fits_requested_corner_witness :
  exists ox oy w h,
    canvas points_box (Some (10, 0)%Q) 20 20 None true square =
    inr (ox, oy, (1, 1)%Q, (w, h)) /\
    fits_canvas (640 # 64, 0 # 64, 3840 # 64, 3200 # 64)%Q ox oy 1 1 w h.
Proof.
  apply (contain_fits_requested_corner points_box square_cmds square
           (Some (10, 0)%Q) 20 20 None _ _ _ _ eq_refl eq_refl);
    vm_compute; discriminate.
Defined.

(* ================================================================== *)
(** * Properties of the report writer *)

Module InterpolatablePdfFacts.
Import InterpolatablePdf.

Section SurfaceFacts.

Variable Glyph : Type.
Variable control_bounds : Glyph -> option (Q * Q * Q * Q).
Variable font_extents : Q -> Q * Q * Q.
Variable text_width : Q -> String.string -> Q.



Lemma truediv_zero (a b : Q) :
  (b == 0)%Q -> truediv (Glyph := Glyph) a b = (inl ZeroDivisionError, []).
Proof.
  intros H. unfold truediv. now rewrite (proj2 (Qeq_bool_iff b 0) H).
Qed.



(** X12.  [draw_glyph] looks at the glyph before it touches the surface:
    a missing glyph raises [KeyError], a glyph without points (no control
    bounds) [TypeError], and a glyph whose control box has no width or no
    height (a single point, a horizontal or vertical stroke) raises
    [ZeroDivisionError]; in each case no cairo call has been made. *)
Theorem draw_glyph_degenerate (self : t Glyph) (glyphset : GlyphSet Glyph)
    (glyphname : String.string) (x y : Q) :
  match glyphset glyphname with
  | None =>
      draw_glyph control_bounds self glyphset glyphname x y =
      (inl (KeyError glyphname), [])
  | Some g =>
      match control_bounds g with
      | None =>
          draw_glyph control_bounds self glyphset glyphname x y =
          (inl TypeError, [])
      | Some (b0, b1, b2, b3) =>
          (b2 - b0 == 0 \/ b3 - b1 == 0)%Q ->
          draw_glyph control_bounds self glyphset glyphname x y =
          (inl ZeroDivisionError, [])
      end
  end.
Proof.
  unfold draw_glyph.
  destruct (glyphset glyphname) as [g |]; [| reflexivity].
  destruct (control_bounds g) as [[[[b0 b1] b2] b3] |]; [| reflexivity].
  intros [Hw | Hh].
  - now rewrite (truediv_zero _ _ Hw).
  - unfold truediv at 1. destruct (Qeq_bool (b2 - b0) 0); [reflexivity|].
    now rewrite (truediv_zero _ _ Hh).
Qed.







(** *** The shape of the calls of one method *)

Lemma quiet_app (a b : list (CairoCall Glyph)) :
  quiet a -> quiet b -> quiet (a ++ b).
Proof. intros Ha Hb. apply Forall_app. now split. Qed.

Lemma cells_app (a b : list (CairoCall Glyph)) :
  fresh_start b -> cells (a ++ b) = cells a ++ cells b.
Proof.
  intros Hb. induction a as [| c a' IH]; [reflexivity|].
  cbn [app cells]. rewrite IH.
  destruct a' as [| d a''].
  - cbn [app cells]. destruct c; try reflexivity.
    destruct b as [| [] b']; try reflexivity. now elim Hb.
  - cbn [app]. destruct c; try reflexivity. destruct d; reflexivity.
Qed.

Lemma fresh_start_app (a b : list (CairoCall Glyph)) :
  fresh_start a -> fresh_start b -> fresh_start (a ++ b).
Proof. destruct a as [| [] a']; auto. Qed.

Lemma dbind_cases {A B} (m : Draw Glyph A) (k : A -> Draw Glyph B)
    (r : Error + B) (calls : list (CairoCall Glyph)) :
  dbind m k = (r, calls) ->
  (exists e, m = (inl e, calls) /\ r = inl e) \/
  (exists a c1 c2, m = (inr a, c1) /\ k a = (r, c2) /\ calls = c1 ++ c2).
Proof.
  unfold dbind. destruct m as [[e | a] c1].
  - intros E. inversion E; subst. left. eauto.
  - destruct (k a) as [r' c2] eqn:K. intros E. inversion E; subst.
    right. eauto 10.
Qed.

Lemma draw_label_shape (self : t Glyph) (label : String.string) (y : Q)
    (color : Color) (align : Q) (r : Error + unit)
    (calls : list (CairoCall Glyph)) :
  draw_label font_extents text_width self label y color align = (r, calls) ->
  quiet calls /\ cells calls = [] /\ fresh_start calls.
Proof.
  unfold draw_label, truediv, Qgt_bool, quiet.
  cbn [emit dbind app].
  destruct (Qeq_bool (snd (font_extents (line_height self))) 0);
    cbn [emit dbind dret draise app].
  - intros E. inversion E; subst. repeat split; repeat constructor.
  - destruct (negb (Qle_bool _ _)); cbn [emit dbind dret draise app].
    + destruct (Qeq_bool _ 0); cbn [emit dbind dret draise app];
        intros E; inversion E; subst; repeat split; repeat constructor.
    + intros E; inversion E; subst; repeat split; repeat constructor.
Qed.

Lemma draw_glyph_shape (self : t Glyph) (glyphset : GlyphSet Glyph)
    (glyphname : String.string) (x y : Q) (r : Error + unit)
    (calls : list (CairoCall Glyph)) :
  draw_glyph control_bounds self glyphset glyphname x y = (r, calls) ->
  quiet calls /\ fresh_start calls /\
  ((exists e, r = inl e) /\ calls = [] \/ cells calls = [(x, y)]).
Proof.
  unfold draw_glyph, quiet.
  destruct (glyphset glyphname) as [g |];
    [| intros E; inversion E; subst; repeat split; eauto].
  destruct (control_bounds g) as [[[[b0 b1] b2] b3] |];
    [| intros E; inversion E; subst; repeat split; eauto].
  unfold truediv at 1 2.
  destruct (Qeq_bool (b2 - b0) 0);
    [intros E; inversion E; subst; repeat split; eauto|].
  destruct (Qeq_bool (b3 - b1) 0);
    [intros E; inversion E; subst; repeat split; eauto|].
  unfold truediv, when_color.
  cbn [emit dbind dret draise app].
  destruct (Qeq_bool _ 0);
    destruct (border_color self), (fill_color self), (stroke_color self);
    cbn [emit dbind dret draise app];
    intros E; inversion E; subst;
    (split; [repeat constructor | split; [exact I | right; reflexivity]]).
Qed.

Lemma master_indices_shape (self : t Glyph) (p : Problem) (keys : list String.string)
    (r : Error + list nat) (calls : list (CairoCall Glyph)) :
  master_indices_of self p keys = (r, calls) ->
  calls = [] /\ forall l, r = inr l -> length l = length keys.
Proof.
  revert r calls. induction keys as [| k rest IH]; intros r calls; cbn [master_indices_of].
  - intros E. inversion E; subst. split; [reflexivity|].
    intros l Hl. inversion Hl. reflexivity.
  - unfold getitem. destruct (lookup p k) as [v |];
      [| intros E; inversion E; subst; split; [reflexivity | discriminate]].
    cbn [dret dbind app].
    destruct (index (names self) v) as [i |];
      [| intros E; inversion E; subst; split; [reflexivity | discriminate]].
    cbn [dret dbind app].
    destruct (master_indices_of self p rest) as [[e | others] c] eqn:M.
    + destruct (IH _ _ eq_refl) as (Hc & _). subst c.
      intros E. inversion E; subst. split; [reflexivity | discriminate].
    + destruct (IH _ _ eq_refl) as (Hc & Hl). subst c.
      cbn [dret dbind app]. intros E. inversion E; subst.
      split; [reflexivity|]. intros l Hr. inversion Hr; subst.
      cbn [length]. f_equal. now apply Hl.
Qed.


Lemma list_item_cases {A} (xs : list A) (i : nat) (r : Error + A)
    (calls : list (CairoCall Glyph)) :
  list_item xs i = (r, calls) -> calls = [].
Proof.
  unfold list_item. destruct (nth_error xs i); intros E; now inversion E.
Qed.

Lemma draw_masters_shape (self : t Glyph) (glyphname : String.string) (x : Q)
    (idxs : list nat) :
  forall (y : Q) (r : Error + Q) (calls : list (CairoCall Glyph)),
    draw_masters control_bounds font_extents text_width
                 self glyphname x idxs y = (r, calls) ->
    quiet calls /\ fresh_start calls.
Proof.
  induction idxs as [| i rest IH]; intros y r calls; cbn [draw_masters].
  - intros E. inversion E; subst. split; constructor.
  - intros E.
    apply dbind_cases in E.
    destruct E as [(e & E & _) | (gs & c1 & c2 & E1 & E & ->)];
      [apply list_item_cases in E; subst; split; constructor|].
    apply list_item_cases in E1; subst c1. cbn [app].
    apply dbind_cases in E.
    destruct E as [(e & E & _) | (nm & c1 & c3 & E1 & E & ->)];
      [apply list_item_cases in E; subst; split; constructor|].
    apply list_item_cases in E1; subst c1. cbn [app].
    apply dbind_cases in E.
    destruct E as [(e & E & _) | ([] & c1 & c4 & E1 & E & ->)];
      [now apply draw_label_shape in E; destruct E as (? & _ & ?)|].
    apply draw_label_shape in E1. destruct E1 as (Q1 & _ & F1).
    apply dbind_cases in E.
    destruct E as [(e & E & _) | ([] & c2 & c5 & E2 & E & ->)].
    + apply draw_glyph_shape in E. destruct E as (Q2 & F2 & _).
      split; [now apply quiet_app | now apply fresh_start_app].
    + apply draw_glyph_shape in E2. destruct E2 as (Q2 & F2 & _).
      apply IH in E. destruct E as (Q3 & F3).
      split; [auto using quiet_app | auto using fresh_start_app].
Qed.

Lemma draw_masters_cells (self : t Glyph) (glyphname : String.string) (x : Q)
    (idxs : list nat) :
  (0 <= pad self)%Q -> (0 <= line_height self)%Q -> (0 <= height self)%Q ->
  forall (y y' : Q) (calls : list (CairoCall Glyph)),
    draw_masters control_bounds font_extents text_width
                 self glyphname x idxs y = (inr y', calls) ->
    length (cells calls) = length idxs /\
    (y' == y + inject_Z (Z.of_nat (length idxs))
               * (line_height self + pad self + (height self + pad self)))%Q /\
    Forall (fun c => fst c = x /\ (y <= snd c)%Q /\
                     (snd c + height self + pad self <= y')%Q) (cells calls).
Proof.
  intros Hp Hl Hh.
  induction idxs as [| i rest IH]; intros y y' calls; cbn [draw_masters].
  - intros E. inversion E; subst. cbn.
    split; [reflexivity|]. split; [ring | constructor].
  - intros E.
    apply dbind_cases in E.
    destruct E as [(e & _ & F) | (gs & c1 & c2 & E1 & E & ->)]; [discriminate|].
    apply list_item_cases in E1; subst c1. cbn [app].
    apply dbind_cases in E.
    destruct E as [(e & _ & F) | (nm & c1 & c3 & E1 & E & ->)]; [discriminate|].
    apply list_item_cases in E1; subst c1. cbn [app].
    apply dbind_cases in E.
    destruct E as [(e & _ & F) | ([] & c1 & c4 & E1 & E & ->)]; [discriminate|].
    apply draw_label_shape in E1. destruct E1 as (_ & C1 & _).
    apply dbind_cases in E.
    destruct E as [(e & _ & F) | ([] & c2 & c5 & E2 & E & ->)]; [discriminate|].
    apply draw_glyph_shape in E2.
    destruct E2 as (_ & F2 & [((e & F) & _) | C2]); [discriminate|].
    pose proof (draw_masters_shape _ _ _ _ _ _ _ E) as (_ & F3).
    apply IH in E. destruct E as (Len & Ey & Fa).
    rewrite !cells_app, C1, C2 by auto using fresh_start_app.
    cbn [app length]. rewrite Len. split; [reflexivity|].
    assert (N : (0 <= inject_Z (Z.of_nat (length rest)))%Q).
    { change 0%Q with (inject_Z 0). rewrite <- Zle_Qle. lia. }
    rewrite Nat2Z.inj_succ, <- Z.add_1_r, inject_Z_succ.
    split; [rewrite Ey; ring|].
    constructor.
    + cbn [fst snd]. split; [reflexivity|]. split; [lra|]. rewrite Ey. nra.
    + eapply Forall_impl; [| exact Fa]. intros [cx cy]. cbn [fst snd].
      intros (Hx & Hy1 & Hy2). split; [exact Hx|]. split; lra.
Qed.

(** The calls of a successful [add_problem]. *)
Lemma add_problem_structure (self : t Glyph) (glyphname : String.string)
    (p : Problem) (calls : list (CairoCall Glyph)) :
  add_problem control_bounds font_extents text_width self glyphname p
  = (inr tt, calls) ->
  let n := if contains p "master"%string then 1%nat else 2%nat in
  exists idxs body y',
    length idxs = n /\
    draw_masters control_bounds font_extents text_width self glyphname (pad self)
                 idxs (pad self + (line_height self + pad self))%Q = (inr y', body) /\
    exists labels,
      quiet labels /\ cells labels = [] /\ fresh_start labels /\
      calls = set_size (width self + 2 * pad self)%Q (total_height self n)
                :: (labels ++ body) ++ [show_page].
Proof.
  intros E n. unfold add_problem in E.
  apply dbind_cases in E.
  destruct E as [(e & _ & F) | (idxs & c0 & c1 & E0 & E & ->)]; [discriminate|].
  apply master_indices_shape in E0. destruct E0 as (-> & L).
  specialize (L idxs eq_refl).
  assert (Ln : length idxs = n).
  { rewrite L. unfold n. destruct (contains p "master"%string); reflexivity. }
  unfold emit at 1 in E. cbn [dbind app] in E.
  destruct (dbind (draw_label _ _ _ _ _ _ _) _) as [r c2] eqn:E2.
  inversion E; subst. clear E.
  apply dbind_cases in E2.
  destruct E2 as [(e & _ & F) | ([] & l1 & c3 & E1 & E & ->)]; [discriminate|].
  apply draw_label_shape in E1. destruct E1 as (Q1 & C1 & F1).
  apply dbind_cases in E.
  destruct E as [(e & _ & F) | (ty & c4 & c5 & E1 & E & ->)]; [discriminate|].
  assert (c4 = []) as ->.
  { unfold getitem in E1. destruct (lookup p "type"%string); now inversion E1. }
  cbn [app] in *.
  apply dbind_cases in E.
  destruct E as [(e & _ & F) | ([] & l2 & c6 & E2 & E & ->)]; [discriminate|].
  apply draw_label_shape in E2. destruct E2 as (Q2 & C2 & F2).
  apply dbind_cases in E.
  destruct E as [(e & _ & F) | (y' & body & c7 & Em & E & ->)]; [discriminate|].
  inversion E; subst c7. clear E.
  exists idxs, body, y'. split; [exact Ln|]. split; [exact Em|].
  exists (l1 ++ l2).
  split; [now apply quiet_app|].
  split; [rewrite cells_app, C1, C2 by exact F2; reflexivity|].
  split; [now apply fresh_start_app|].
  rewrite Ln. cbn [app]. f_equal. rewrite <- !app_assoc. reflexivity.
Qed.


(** X16.  [add_problem] resolves the masters before it touches the
    surface: a problem with neither a [master] nor a [master_1] field
    raises [KeyError], and a master name that is not among the names of
    the report raises [ValueError], in both cases with no cairo call
    made (the page is not even resized). *)
Theorem add_problem_unresolved_master (self : t Glyph)
    (glyphname : String.string) (p : Problem) :
  (lookup p "master"%string = None -> lookup p "master_1"%string = None ->
   add_problem control_bounds font_extents text_width self glyphname p =
   (inl (KeyError "master_1"%string), [])) /\
  (forall v, lookup p "master"%string = Some v -> index (names self) v = None ->
   add_problem control_bounds font_extents text_width self glyphname p =
   (inl ValueError, [])).
Proof.
  split.
  - intros H0 H1. unfold add_problem, contains. rewrite H0.
    cbn [master_indices_of]. unfold getitem. rewrite H1. reflexivity.
  - intros v H0 Hi. unfold add_problem, contains. rewrite H0.
    cbn [master_indices_of]. unfold getitem. rewrite H0.
    cbn [dret dbind app]. rewrite Hi. reflexivity.
Qed.

(** X17.  A successful [add_problem] on a report with non-negative pad,
    line height and cell height first sizes the page to the cell width plus
    a pad on either side and to the height of a header and one row per
    master (one master for a problem with a [master] field, two
    otherwise), ends with [show_page], and draws exactly one glyph cell
    per master, one pad in from the left, each of them between the top pad
    and the bottom pad of the page. *)
Theorem add_problem_page (self : t Glyph) (glyphname : String.string)
    (p : Problem) (calls : list (CairoCall Glyph)) :
  (0 <= pad self)%Q -> (0 <= line_height self)%Q -> (0 <= height self)%Q ->
  add_problem control_bounds font_extents text_width self glyphname p
  = (inr tt, calls) ->
  let n := if contains p "master"%string then 1%nat else 2%nat in
  (exists body,
      calls = set_size (width self + 2 * pad self)%Q (total_height self n)
                :: body ++ [show_page] /\
      quiet body) /\
  length (cells calls) = n /\
  Forall (fun c => fst c = pad self /\ (pad self <= snd c)%Q /\
                   (snd c + height self + pad self <= total_height self n)%Q)
         (cells calls).
Proof.
  intros Hp Hl Hh E n.
  destruct (add_problem_structure _ _ _ _ E)
    as (idxs & body & y' & Ln & Em & labels & Ql & Cl & Fl & ->).
  fold n in Ln |- *.
  pose proof (draw_masters_shape _ _ _ _ _ _ _ Em) as (Qb & Fb).
  destruct (draw_masters_cells _ _ _ _ Hp Hl Hh _ _ _ Em) as (Len & Ey & Fa).
  split; [eexists; split; [reflexivity | now apply quiet_app]|].
  assert (C : cells (set_size (width self + 2 * pad self)%Q (total_height self n)
                       :: (labels ++ body) ++ [show_page]) = cells body).
  { cbn [cells]. rewrite !cells_app, Cl by (exact Fb || exact I).
    cbn [cells app]. now rewrite app_nil_r. }
  rewrite C. split; [congruence|].
  eapply Forall_impl; [| exact Fa]. intros [cx cy]. cbn [fst snd].
  intros (Hx & Hy1 & Hy2). split; [exact Hx|].
  assert (T : (total_height self n == y' + pad self)%Q).
  { unfold total_height. rewrite Ey, Ln. ring. }
  rewrite T. split; lra.
Qed.

Lemma quiet_filter (calls : list (CairoCall Glyph)) :
  quiet calls ->
  filter is_show_page calls = [] /\ filter is_set_size calls = [].
Proof.
  induction 1 as [| c rest [H1 H2] _ [IH1 IH2]]; [split; reflexivity|].
  cbn [filter]. rewrite H1, H2. now split.
Qed.

Lemma add_problem_one_page (self : t Glyph) (glyphname : String.string)
    (p : Problem) (calls : list (CairoCall Glyph)) :
  add_problem control_bounds font_extents text_width self glyphname p
  = (inr tt, calls) ->
  length (filter is_show_page calls) = 1%nat /\
  length (filter is_set_size calls) = 1%nat.
Proof.
  intros E.
  destruct (add_problem_structure _ _ _ _ E)
    as (idxs & body & y' & _ & Em & labels & Ql & _ & _ & ->).
  pose proof (draw_masters_shape _ _ _ _ _ _ _ Em) as (Qb & _).
  destruct (quiet_filter _ Ql) as (L1 & L2).
  destruct (quiet_filter _ Qb) as (B1 & B2).
  cbn [filter is_show_page is_set_size].
  rewrite !filter_app, L1, L2, B1, B2. split; reflexivity.
Qed.

Lemma add_problem_list_pages (self : t Glyph) (glyph : String.string)
    (ps : list Problem) :
  forall calls,
    add_problem_list control_bounds font_extents text_width self glyph ps
    = (inr tt, calls) ->
    length (filter is_show_page calls) = length ps /\
    length (filter is_set_size calls) = length ps.
Proof.
  induction ps as [| p rest IH]; intros calls; cbn [add_problem_list].
  - intros E. inversion E; subst. split; reflexivity.
  - intros E. apply dbind_cases in E.
    destruct E as [(e & _ & F) | ([] & c1 & c2 & E1 & E & ->)]; [discriminate|].
    apply add_problem_one_page in E1. apply IH in E.
    rewrite !filter_app, !length_app. cbn [length]. lia.
Qed.

(** X18.  A successful [add_problems] produces one page per problem:
    the page is sized and shown exactly as many times as there are
    problems in the report, over all glyphs. *)
Theorem add_problems_pages (self : t Glyph)
    (problems : list (String.string * list Problem)) :
  forall calls,
    add_problems control_bounds font_extents text_width self problems
    = (inr tt, calls) ->
    length (filter is_show_page calls) = length (concat (map snd problems)) /\
    length (filter is_set_size calls) = length (concat (map snd problems)).
Proof.
  induction problems as [| [glyph ps] rest IH]; intros calls;
    cbn [add_problems].
  - intros E. inversion E; subst. split; reflexivity.
  - intros E. apply dbind_cases in E.
    destruct E as [(e & _ & F) | ([] & c1 & c2 & E1 & E & ->)]; [discriminate|].
    apply add_problem_list_pages in E1. apply IH in E.
    cbn [map snd concat]. rewrite !filter_app, !length_app. lia.
Qed.

(** *** The texts of a page *)

Lemma texts_app (a b : list (CairoCall Glyph)) :
  texts (a ++ b) = texts a ++ texts b.
Proof.
  induction a as [| c a' IH]; [reflexivity|].
  destruct c; cbn [app texts]; rewrite IH; reflexivity.
Qed.

Lemma draw_label_texts (self : t Glyph) (label : String.string) (y : Q)
    (color : Color) (align : Q) (calls : list (CairoCall Glyph)) :
  draw_label font_extents text_width self label y color align = (inr tt, calls) ->
  texts calls = [label].
Proof.
  unfold draw_label, truediv, Qgt_bool.
  cbn [emit dbind app].
  destruct (Qeq_bool (snd (font_extents (line_height self))) 0);
    cbn [emit dbind dret draise app]; [discriminate|].
  destruct (negb (Qle_bool _ _)); cbn [emit dbind dret draise app].
  - destruct (Qeq_bool _ 0); cbn [emit dbind dret draise app];
      intros E; inversion E; reflexivity.
  - intros E; inversion E; reflexivity.
Qed.

Lemma draw_glyph_texts (self : t Glyph) (glyphset : GlyphSet Glyph)
    (glyphname : String.string) (x y : Q) (r : Error + unit)
    (calls : list (CairoCall Glyph)) :
  draw_glyph control_bounds self glyphset glyphname x y = (r, calls) ->
  texts calls = [].
Proof.
  unfold draw_glyph.
  destruct (glyphset glyphname) as [g |]; [| intros E; now inversion E].
  destruct (control_bounds g) as [[[[b0 b1] b2] b3] |];
    [| intros E; now inversion E].
  unfold truediv at 1 2.
  destruct (Qeq_bool (b2 - b0) 0); [intros E; now inversion E|].
  destruct (Qeq_bool (b3 - b1) 0); [intros E; now inversion E|].
  unfold truediv, when_color.
  cbn [emit dbind dret draise app].
  destruct (Qeq_bool _ 0);
    destruct (border_color self), (fill_color self), (stroke_color self);
    cbn [emit dbind dret draise app];
    intros E; inversion E; reflexivity.
Qed.

Lemma index_found (xs : list String.string) (v : String.string) :
  forall i, index xs v = Some i -> nth_error xs i = Some v.
Proof.
  induction xs as [| n rest IH]; intros i; cbn [index]; [discriminate|].
  destruct (String.eqb n v) eqn:E.
  - intros H. inversion H; subst. apply String.eqb_eq in E. now subst.
  - destruct (index rest v) as [j |]; cbn [option_map]; [| discriminate].
    intros H. inversion H; subst. cbn [nth_error]. now apply IH.
Qed.

Lemma master_indices_names (self : t Glyph) (p : Problem)
    (keys : list String.string) :
  forall idxs calls,
    master_indices_of self p keys = (inr idxs, calls) ->
    map (nth_error (names self)) idxs = map (lookup p) keys.
Proof.
  induction keys as [| k rest IH]; intros idxs calls; cbn [master_indices_of].
  - intros E. inversion E. reflexivity.
  - unfold getitem. destruct (lookup p k) as [v |] eqn:Lk; [| discriminate].
    cbn [dret dbind app].
    destruct (index (names self) v) as [i |] eqn:Ix; [| discriminate].
    cbn [dret dbind app].
    destruct (master_indices_of self p rest) as [[e | others] c] eqn:M;
      [discriminate|].
    cbn [dret dbind app]. intros E. inversion E; subst.
    cbn [map]. rewrite (index_found _ _ _ Ix), Lk. f_equal. eapply IH. reflexivity.
Qed.

Lemma draw_masters_texts (self : t Glyph) (glyphname : String.string) (x : Q)
    (idxs : list nat) :
  forall (y y' : Q) (calls : list (CairoCall Glyph)),
    draw_masters control_bounds font_extents text_width
                 self glyphname x idxs y = (inr y', calls) ->
    map Some (texts calls) = map (nth_error (names self)) idxs.
Proof.
  induction idxs as [| i rest IH]; intros y y' calls; cbn [draw_masters].
  - intros E. inversion E. reflexivity.
  - intros E.
    apply dbind_cases in E.
    destruct E as [(e & _ & F) | (gs & c1 & c2 & E1 & E & ->)]; [discriminate|].
    apply list_item_cases in E1; subst c1. cbn [app].
    apply dbind_cases in E.
    destruct E as [(e & _ & F) | (nm & c1 & c3 & E1 & E & ->)]; [discriminate|].
    assert (Nm : nth_error (names self) i = Some nm).
    { unfold list_item in E1. destruct (nth_error (names self) i);
        inversion E1; reflexivity. }
    apply list_item_cases in E1; subst c1. cbn [app].
    apply dbind_cases in E.
    destruct E as [(e & _ & F) | ([] & c1 & c4 & E1 & E & ->)]; [discriminate|].
    apply draw_label_texts in E1.
    apply dbind_cases in E.
    destruct E as [(e & _ & F) | ([] & c2 & c5 & E2 & E & ->)]; [discriminate|].
    apply draw_glyph_texts in E2. apply IH in E.
    rewrite !texts_app, E1, E2. cbn [app map]. now rewrite Nm, E.
Qed.

(** X19.  The texts on the page of a successful [add_problem] are, in
    this order, the glyph name, the type of the problem, and the names of
    its masters exactly as the problem gives them: looking a master up in
    the names of the report and reading the name back at the position
    found returns the master.  Nothing else is written. *)
Theorem add_problem_texts (self : t Glyph) (glyphname : String.string)
    (p : Problem) (calls : list (CairoCall Glyph)) :
  add_problem control_bounds font_extents text_width self glyphname p
  = (inr tt, calls) ->
  map Some (texts calls) =
  Some glyphname :: lookup p "type"%string
    :: map (lookup p)
         (if contains p "master"%string then ["master"%string]
          else ["master_1"; "master_2"]%string).
Proof.
  intros E. unfold add_problem in E.
  apply dbind_cases in E.
  destruct E as [(e & _ & F) | (idxs & c0 & c1 & E0 & E & ->)]; [discriminate|].
  pose proof (master_indices_names _ _ _ _ _ E0) as Nm.
  apply master_indices_shape in E0. destruct E0 as (-> & _).
  unfold emit at 1 in E. cbn [dbind app] in E.
  destruct (dbind (draw_label _ _ _ _ _ _ _) _) as [r c2] eqn:E2.
  inversion E; subst. clear E.
  apply dbind_cases in E2.
  destruct E2 as [(e & _ & F) | ([] & l1 & c3 & E1 & E & ->)]; [discriminate|].
  apply draw_label_texts in E1.
  apply dbind_cases in E.
  destruct E as [(e & _ & F) | (ty & c4 & c5 & Et & E & ->)]; [discriminate|].
  assert (Ty : lookup p "type"%string = Some ty /\ c4 = []).
  { unfold getitem in Et. destruct (lookup p "type"%string);
      inversion Et; split; reflexivity. }
  destruct Ty as (Ty & ->).
  apply dbind_cases in E.
  destruct E as [(e & _ & F) | ([] & l2 & c6 & E2 & E & ->)]; [discriminate|].
  apply draw_label_texts in E2.
  apply dbind_cases in E.
  destruct E as [(e & _ & F) | (y' & body & c7 & Em & E & ->)]; [discriminate|].
  inversion E; subst. clear E.
  apply draw_masters_texts in Em.
  cbn [app texts]. rewrite !texts_app, E1, E2. cbn [app texts map].
  rewrite app_nil_r, Em, Ty, Nm. reflexivity.
Qed.

End SurfaceFacts.

Lemma draw_glyph_degenerate_witness :
  draw_glyph flat_bounds sample_report sample_glyphset "a"%string 16 104 =
  (inl ZeroDivisionError, []).
Proof.
  exact (draw_glyph_degenerate unit flat_bounds sample_report sample_glyphset
           "a"%string 16 104 (or_intror eq_refl)).
Defined.




Lemma add_problem_unresolved_master_witness :
  add_problem sample_bounds sample_font_extents sample_text_width sample_report
              "a"%string [("type", "open_path")]%string =
  (inl (KeyError "master_1"%string), []) /\
  add_problem sample_bounds sample_font_extents sample_text_width sample_report
              "a"%string [("master", "Italic"); ("type", "open_path")]%string =
  (inl ValueError, []).
Proof.
  split.
  - exact (proj1 (add_problem_unresolved_master unit sample_bounds
                    sample_font_extents sample_text_width sample_report
                    "a"%string [("type", "open_path")]%string)
                 eq_refl eq_refl).
  - exact (proj2 (add_problem_unresolved_master unit sample_bounds
                    sample_font_extents sample_text_width sample_report
                    "a"%string
                    [("master", "Italic"); ("type", "open_path")]%string)
                 "Italic"%string eq_refl eq_refl).
Defined.

Lemma add_problem_page_witness :
  length (cells (snd (add_problem sample_bounds sample_font_extents
                        sample_text_width sample_report "a"%string
                        sample_problem))) = 2%nat /\
  Forall (fun c => fst c = 16%Q /\ (16 <= snd c)%Q /\
                   (snd c + 480 + 16 <= total_height sample_report 2)%Q)
         (cells (snd (add_problem sample_bounds sample_font_extents
                        sample_text_width sample_report "a"%string
                        sample_problem))).
Proof.
  refine (proj2 (add_problem_page unit sample_bounds sample_font_extents
                   sample_text_width sample_report "a"%string sample_problem
                   _ _ _ _ _)).
  - vm_compute. discriminate.
  - vm_compute. discriminate.
  - vm_compute. discriminate.
  - vm_compute. reflexivity.
Defined.

Lemma add_problems_pages_witness :
  length (filter is_show_page
            (snd (add_problems sample_bounds sample_font_extents
                    sample_text_width sample_report
                    [("a"%string, [sample_problem; single_problem])]))) = 2%nat.
Proof.
  refine (proj1 (add_problems_pages unit sample_bounds sample_font_extents
                   sample_text_width sample_report
                   [("a"%string, [sample_problem; single_problem])] _ _)).
  vm_compute. reflexivity.
Defined.

Lemma add_problem_texts_witness :
  texts (snd (add_problem sample_bounds sample_font_extents sample_text_width
                sample_report "a"%string sample_problem)) =
  ["a"; "contour_order"; "Regular"; "Bold"]%string.
Proof.
  pose proof (add_problem_texts unit sample_bounds sample_font_extents
                sample_text_width sample_report "a"%string sample_problem
                _ eq_refl) as H.
  cbn [map lookup contains sample_problem] in H.
  vm_compute in H. vm_compute.
  inversion H. reflexivity.
Defined.

End InterpolatablePdfFacts.
